(** * YockEngine: the sprite simulation of [YockEngine.cpp]

    A shallow embedding of the simulation core of [YockEngine.cpp]
    (collision predicate, spawner, and the per-frame update, collision and
    expiration loops of [main]) together with the properties its
    specification states about it, and of the texture loading, the startup
    check, the spawn timer and the render loop of [main] with further
    properties of the code.

    Conventions of the embedding:
    - a C++ [int] is a [Z] in the range [INT_MIN .. INT_MAX]; the arithmetic
      operators are the mathematical ones followed by two's complement
      wrap-around ([wrap_int]), which is what the target hardware computes
      where C++ leaves signed overflow undefined;
    - a C++ [float] is an IEEE-754 binary32 value, modelled with the
      parameterised [spec_float] operations of the standard library at
      precision 24 and maximal exponent 128;
    - [std::vector<Sprite>] is a [list Sprite], indexed with stdpp's lookup
      and updated in place with [alter]; an out-of-range subscript is
      undefined in C++ and makes the model return [None];
    - every loop is run by the combinator [while] under an explicit bound on
      the number of iterations; running out of that bound is [None] too, and
      the theorems show it never happens. *)

From Stdlib Require Import ZArith Lia Bool.
From Stdlib Require Import Floats.SpecFloat.
From stdpp Require Import base tactics option numbers list strings.

Local Open Scope Z_scope.

(** ** Machine integers *)

Definition INT_MIN : Z := -2147483648.
Definition INT_MAX : Z := 2147483647.
Definition UINT32_MOD : Z := 4294967296.

(** Reduction of a mathematical integer to the [int] with the same residue
    modulo [2^32]. *)
Definition wrap_int (z : Z) : Z := (z - INT_MIN) `mod` UINT32_MOD + INT_MIN.

Definition int_range (z : Z) : Prop := INT_MIN ≤ z ≤ INT_MAX.

Definition int_add (a b : Z) : Z := wrap_int (a + b).
Definition int_sub (a b : Z) : Z := wrap_int (a - b).
Definition int_mul (a b : Z) : Z := wrap_int (a * b).
Definition int_neg (a : Z) : Z := wrap_int (- a).

(** [a % b] on [int]: C++ truncates the quotient towards zero; a zero
    divisor is undefined. *)
Definition int_rem (a b : Z) : option Z :=
  if decide (b = 0) then None else Some (wrap_int (Z.rem a b)).

(** Subtraction on [Uint32] wraps modulo [2^32]. *)
Definition uint32_sub (a b : Z) : Z := (a - b) `mod` UINT32_MOD.

Infix "+i" := int_add (at level 50, left associativity).
Infix "-i" := int_sub (at level 50, left associativity).
Infix "*i" := int_mul (at level 40, left associativity).

(** ** Single-precision floats *)

Module Float32.

Definition prec : Z := 24.
Definition emax : Z := 128.

Definition float : Type := spec_float.

Definition mul : float → float → float := SFmul prec emax.
Definition div : float → float → float := SFdiv prec emax.
Definition opp : float → float := SFopp.

(** Conversion of an integer ([int] or [Uint32]) to [float], rounding to
    nearest, ties to even. *)
Definition of_Z (z : Z) : float := binary_normalize prec emax z 0 false.

(** The integer part of a finite float, rounding towards zero. *)
Definition truncate (f : float) : option Z :=
  match f with
  | S754_zero _ => Some 0
  | S754_finite s m e =>
      Some (cond_Zopp s (if decide (0 ≤ e) then Z.pos m * 2 ^ e
                         else Z.pos m `quot` 2 ^ (- e)))
  | S754_infinity _ | S754_nan => None
  end.

(** [static_cast<int>(f)]: truncation towards zero. When the truncated
    value is not representable (or [f] is not finite) C++ leaves the
    conversion undefined; the conversion instruction of the target
    ([cvttss2si]) then yields the "integer indefinite" value [INT_MIN]. *)
Definition to_int (f : float) : Z :=
  match truncate f with
  | Some z => if decide (INT_MIN ≤ z ≤ INT_MAX) then z else INT_MIN
  | None => INT_MIN
  end.

End Float32.

Abbreviation float := Float32.float.

(** ** Data model *)

(** [SDL_Rect]: position of the top-left corner and size, all [int]. *)
Module Rect.
Record SDL_Rect : Type := mk { x : Z; y : Z; w : Z; h : Z }.
End Rect.
Abbreviation SDL_Rect := Rect.SDL_Rect.

(** [SDL_Texture*]: an opaque, non-owning handle, modelled by its address. *)
Definition SDL_Texture : Type := N.

Record Sprite : Type := mkSprite {
  rect : SDL_Rect;
  speedX : Z;
  speedY : Z;
  lifetime : Z;
  texture : SDL_Texture
}.

Definition SCREEN_WIDTH : Z := 800.
Definition SCREEN_HEIGHT : Z := 600.

(** Field assignments [s.f = v] and [s.rect.f = v]. *)
Definition set_speedX (v : Z) (s : Sprite) : Sprite :=
  mkSprite (rect s) v (speedY s) (lifetime s) (texture s).
Definition set_speedY (v : Z) (s : Sprite) : Sprite :=
  mkSprite (rect s) (speedX s) v (lifetime s) (texture s).
Definition set_lifetime (v : Z) (s : Sprite) : Sprite :=
  mkSprite (rect s) (speedX s) (speedY s) v (texture s).
Definition set_x (v : Z) (s : Sprite) : Sprite :=
  mkSprite (Rect.mk v (Rect.y (rect s)) (Rect.w (rect s)) (Rect.h (rect s)))
           (speedX s) (speedY s) (lifetime s) (texture s).
Definition set_y (v : Z) (s : Sprite) : Sprite :=
  mkSprite (Rect.mk (Rect.x (rect s)) v (Rect.w (rect s)) (Rect.h (rect s)))
           (speedX s) (speedY s) (lifetime s) (texture s).

(** ** Collision predicate *)

Definition checkCollision (a b : SDL_Rect) : bool :=
  bool_decide (Rect.x a < Rect.x b +i Rect.w b) &&
  bool_decide (Rect.x a +i Rect.w a > Rect.x b) &&
  bool_decide (Rect.y a < Rect.y b +i Rect.h b) &&
  bool_decide (Rect.y a +i Rect.h a > Rect.y b).

(** ** Loops *)

(** [while fuel cond body s] runs [while (cond) body] from state [s] for at
    most [fuel] evaluations of the condition. [None] is an undefined
    operation in the body or an exhausted bound. *)
Fixpoint while {St : Type} (fuel : nat) (cond : St → bool)
    (body : St → option St) (s : St) : option St :=
  match fuel with
  | O => None
  | S fuel' => if cond s then body s ≫= while fuel' cond body else Some s
  end.

(** [sprites[i] = f(sprites[i])]: in-place update of one element. *)
Definition modify (i : nat) (f : Sprite → Sprite) (v : list Sprite)
    : option (list Sprite) :=
  if decide (i < length v)%nat then Some (alter f i v) else None.

(** ** The update loop (integration, bounce, lifetime) *)

(** [static_cast<int>(speed * deltaTime * 60)] *)
Definition displacement (speed : Z) (deltaTime : float) : Z :=
  Float32.to_int
    (Float32.mul (Float32.mul (Float32.of_Z speed) deltaTime) (Float32.of_Z 60)).

Definition hits_x_bound (s : Sprite) : bool :=
  bool_decide (Rect.x (rect s) ≤ 0) ||
  bool_decide (Rect.x (rect s) +i Rect.w (rect s) >= SCREEN_WIDTH).

Definition hits_y_bound (s : Sprite) : bool :=
  bool_decide (Rect.y (rect s) ≤ 0) ||
  bool_decide (Rect.y (rect s) +i Rect.h (rect s) >= SCREEN_HEIGHT).

(** The body of the first [for] loop of a frame, on [sprites[i]]. *)
Definition update_sprite (deltaTime : float) (s : Sprite) : Sprite :=
  let s := set_x (Rect.x (rect s) +i displacement (speedX s) deltaTime) s in
  let s := set_y (Rect.y (rect s) +i displacement (speedY s) deltaTime) s in
  let s := if hits_x_bound s then set_speedX (int_neg (speedX s)) s else s in
  let s := if hits_y_bound s then set_speedY (int_neg (speedY s)) s else s in
  set_lifetime (lifetime s -i 1) s.

(** The shape of the three counted loops [for (k = k0; k < sprites.size();
    ++k) body]: the loop state is the counter and the vector. *)
Definition index_in_range : nat * list Sprite → bool :=
  λ '(i, v), bool_decide (i < length v)%nat.

Definition for_body (body : nat → list Sprite → option (list Sprite))
    : nat * list Sprite → option (nat * list Sprite) :=
  λ '(i, v), v ← body i v; Some (S i, v).

Definition update_positions (deltaTime : float) (sprites : list Sprite)
    : option (list Sprite) :=
  snd <$> while (S (length sprites)) index_in_range
            (for_body (λ i, modify i (update_sprite deltaTime)))
            (0%nat, sprites).

(** ** The collision loops *)

Definition negate_speedX (s : Sprite) : Sprite := set_speedX (int_neg (speedX s)) s.
Definition negate_speedY (s : Sprite) : Sprite := set_speedY (int_neg (speedY s)) s.
Definition x_minus_1 (s : Sprite) : Sprite := set_x (Rect.x (rect s) -i 1) s.
Definition x_plus_1 (s : Sprite) : Sprite := set_x (Rect.x (rect s) +i 1) s.
Definition y_minus_1 (s : Sprite) : Sprite := set_y (Rect.y (rect s) -i 1) s.
Definition y_plus_1 (s : Sprite) : Sprite := set_y (Rect.y (rect s) +i 1) s.

(** The body of the inner loop: the test of the pair [(i, j)] and, when it
    collides, the eight assignments in program order. Every comparison
    reads the vector as the preceding assignments left it. *)
Definition resolve_collision (i j : nat) (v : list Sprite)
    : option (list Sprite) :=
  a ← v !! i; b ← v !! j;
  if checkCollision (rect a) (rect b) then
    v ← modify i negate_speedX v;
    v ← modify i negate_speedY v;
    v ← modify j negate_speedX v;
    v ← modify j negate_speedY v;
    a ← v !! i; b ← v !! j;
    v ← (if bool_decide (Rect.x (rect a) < Rect.x (rect b))
         then modify i x_minus_1 v ≫= modify j x_plus_1
         else modify i x_plus_1 v ≫= modify j x_minus_1);
    a ← v !! i; b ← v !! j;
    if bool_decide (Rect.y (rect a) < Rect.y (rect b))
    then modify i y_minus_1 v ≫= modify j y_plus_1
    else modify i y_plus_1 v ≫= modify j y_minus_1
  else Some v.

(** [for (j = i + 1; j < sprites.size(); ++j)] *)
Definition collide_with_later (i : nat) (sprites : list Sprite)
    : option (list Sprite) :=
  snd <$> while (S (length sprites)) index_in_range
            (for_body (resolve_collision i))
            (S i, sprites).

(** [for (i = 0; i < sprites.size(); ++i)] *)
Definition handle_collisions (sprites : list Sprite) : option (list Sprite) :=
  snd <$> while (S (length sprites)) index_in_range
            (for_body collide_with_later)
            (0%nat, sprites).

(** ** Expiration *)

(** One [for (it = begin(); it != end();)] pass. The iterator is its
    offset from [begin()]; [erase] returns the offset it was given. *)
Definition not_at_end : nat * list Sprite → bool :=
  λ '(it, v), bool_decide (it ≠ length v).

Definition erase_or_advance : nat * list Sprite → option (nat * list Sprite) :=
  λ '(it, v), s ← v !! it;
    if bool_decide (lifetime s ≤ 0) then Some (it, delete it v)
    else Some (S it, v).

Definition remove_expired (sprites : list Sprite) : option (list Sprite) :=
  snd <$> while (S (length sprites)) not_at_end erase_or_advance
            (0%nat, sprites).

(** ** One simulation step: update, collide, expire (twice, as written) *)

Definition expire (sprites : list Sprite) : option (list Sprite) :=
  remove_expired sprites ≫= remove_expired.

Definition simulation_step (deltaTime : float) (sprites : list Sprite)
    : option (list Sprite) :=
  v ← update_positions deltaTime sprites;
  v ← handle_collisions v;
  expire v.

(** ** Spawner and frame *)

(** [rand() % size] where [size] is a [size_t]: the [int] is converted to
    the 64-bit unsigned type first; a zero divisor is undefined. *)
Definition size_rem (a : Z) (size : nat) : option nat :=
  if decide (size = 0%nat) then None
  else Some (Z.to_nat ((a `mod` 2 ^ 64) `mod` Z.of_nat size)).

Section Game.

(** The process-wide generator behind [rand()]: a state and the function
    that yields the next value and the next state. *)
Context {RandState : Type}.
Variable rand : RandState → Z * RandState.

(** The operands of each product are drawn left to right. *)
Definition spawnSprite (textures : list SDL_Texture) (g : RandState)
    : option (Sprite * RandState) :=
  let '(r, g) := rand g in x ← int_rem r (SCREEN_WIDTH -i 50);
  let '(r, g) := rand g in y ← int_rem r (SCREEN_HEIGHT -i 50);
  let '(r, g) := rand g in mx ← int_rem r 5;
  let '(r, g) := rand g in sx ← int_rem r 2;
  let '(r, g) := rand g in my ← int_rem r 5;
  let '(r, g) := rand g in sy ← int_rem r 2;
  let '(r, g) := rand g in life ← int_rem r 300;
  let '(r, g) := rand g in idx ← size_rem r (length textures);
  t ← textures !! idx;
  Some (mkSprite (Rect.mk x y 50 50)
          ((mx +i 1) *i (if decide (sx ≠ 0) then 1 else -1))
          ((my +i 1) *i (if decide (sy ≠ 0) then 1 else -1))
          (life +i 100) t, g).

(** What persists from one iteration of the main loop to the next. *)
Record Game : Type := mkGame {
  sprites : list Sprite;
  spawnTimer : Z;
  lastTime : Z;
  rng : RandState
}.

(** What one iteration reads from outside: the value the debug slider
    writes into [spawnTimer] (when it is moved) and [SDL_GetTicks()]. *)
Record Input : Type := mkInput {
  slider : option Z;
  currentTime : Z
}.

(** [(currentTime - lastTime) / 1000.0f] *)
Definition frame_deltaTime (inp : Input) (st : Game) : float :=
  Float32.div (Float32.of_Z (uint32_sub (currentTime inp) (lastTime st)))
              (Float32.of_Z 1000).

(** One iteration of the main loop, from the debug window to the second
    expiration pass. *)
Definition frame (textures : list SDL_Texture) (inp : Input) (st : Game)
    : option Game :=
  let timer := default (spawnTimer st) (slider inp) in
  let timer := timer +i 1 in
  '(v, timer, g) ←
    (if bool_decide (timer > 30)
     then '(s, g) ← spawnSprite textures (rng st); Some (sprites st ++ [s], 0, g)
     else Some (sprites st, timer, rng st));
  let deltaTime := frame_deltaTime inp st in
  v ← simulation_step deltaTime v;
  Some (mkGame v timer (currentTime inp) g).

Fixpoint run (textures : list SDL_Texture) (inputs : list Input) (st : Game)
    : option Game :=
  match inputs with
  | [] => Some st
  | inp :: inputs => frame textures inp st ≫= run textures inputs
  end.

End Game.

Arguments mkGame {_} _ _ _ _.
Arguments sprites {_} _.
Arguments spawnTimer {_} _.
Arguments lastTime {_} _.
Arguments rng {_} _.
Arguments frame_deltaTime {_} _ _.

(** ** Reference descriptions

    The closed forms the loops are compared with. *)

(** A sprite is alive when its remaining lifetime is positive. *)
Definition alive (s : Sprite) : Prop := 0 < lifetime s.

#[global] Instance alive_dec (s : Sprite) : Decision (alive s) :=
  decide (0 < lifetime s).

(** The response to a collision of [a] (lower index) with [b]: speeds
    negated, one unit of separation per axis. *)
Definition collision_response (a b : Sprite) : Sprite * Sprite :=
  let ax := Rect.x (rect a) in let ay := Rect.y (rect a) in
  let bx := Rect.x (rect b) in let by_ := Rect.y (rect b) in
  (mkSprite (Rect.mk (if bool_decide (ax < bx) then ax -i 1 else ax +i 1)
                     (if bool_decide (ay < by_) then ay -i 1 else ay +i 1)
                     (Rect.w (rect a)) (Rect.h (rect a)))
            (int_neg (speedX a)) (int_neg (speedY a)) (lifetime a) (texture a),
   mkSprite (Rect.mk (if bool_decide (ax < bx) then bx +i 1 else bx -i 1)
                     (if bool_decide (ay < by_) then by_ +i 1 else by_ -i 1)
                     (Rect.w (rect b)) (Rect.h (rect b)))
            (int_neg (speedX b)) (int_neg (speedY b)) (lifetime b) (texture b)).

(** The visit of the pair [(i, j)]: the response is written back when the
    two rectangles collide as they are at that moment. *)
Definition resolve_pair (v : list Sprite) (p : nat * nat) : list Sprite :=
  match v !! p.1, v !! p.2 with
  | Some a, Some b =>
      if checkCollision (rect a) (rect b)
      then <[p.2 := (collision_response a b).2]>
             (<[p.1 := (collision_response a b).1]> v)
      else v
  | _, _ => v
  end.

(** The pairs [(i, j)] with [i < j < n], in the order of the nested loops. *)
Definition index_pairs (n : nat) : list (nat * nat) :=
  i ← seq 0 n; (λ j, (i, j)) <$> seq (S i) (n - S i).

(** The vector after the update and collision loops, before expiration. *)
Definition pre_expiry (dt : float) (v : list Sprite) : list Sprite :=
  foldl resolve_pair (update_sprite dt <$> v) (index_pairs (length v)).

(** What the update and collision loops never change of a sprite. *)
Definition same_identity (s s' : Sprite) : Prop :=
  texture s' = texture s ∧ Rect.w (rect s') = Rect.w (rect s) ∧
  Rect.h (rect s') = Rect.h (rect s).

(** [s'] is [s] with the same lifetime, texture and size. *)
Definition kept (s s' : Sprite) : Prop :=
  lifetime s' = lifetime s ∧ same_identity s s'.

(** [s'] is [s] one [lifetime--] later. *)
Definition aged_once (s s' : Sprite) : Prop :=
  lifetime s' = lifetime s -i 1 ∧ same_identity s s'.

(** The lifetime of [s'] is that of [s] less [k]; same texture and size. *)
Definition aged (k : Z) (s s' : Sprite) : Prop :=
  lifetime s' = lifetime s - k ∧ same_identity s s'.

(** Both speeds are [int]s other than zero. *)
Definition moving (s : Sprite) : Prop :=
  int_range (speedX s) ∧ int_range (speedY s) ∧ speedX s ≠ 0 ∧ speedY s ≠ 0.

(** The speeds of [s'] are those of [s], each kept or negated. *)
Definition speeds_kept_or_negated (s s' : Sprite) : Prop :=
  (speedX s' = speedX s ∨ speedX s' = int_neg (speedX s)) ∧
  (speedY s' = speedY s ∨ speedY s' = int_neg (speedY s)).

(** The right and bottom edges of [r] are computed without overflow. *)
Definition edges_representable (r : SDL_Rect) : Prop :=
  int_range (Rect.x r + Rect.w r) ∧ int_range (Rect.y r + Rect.h r).

(** No pair of sprites of [v] collides. *)
Definition no_collision (v : list Sprite) : bool :=
  forallb (λ p, match v !! p.1, v !! p.2 with
                | Some a, Some b => negb (checkCollision (rect a) (rect b))
                | _, _ => true
                end) (index_pairs (length v)).

(** ** Example data *)

(** A generator for examples: the linear congruential [rand()] of the
    Microsoft C runtime, whose values lie in [0 .. 32767]. *)
Definition msvc_rand (seed : Z) : Z * Z :=
  let seed := (seed * 214013 + 2531011) `mod` UINT32_MOD in
  ((seed `div` 65536) `mod` 32768, seed).

(** The three textures [main] loads. *)
Definition three_textures : list SDL_Texture := [1%N; 2%N; 3%N].

(** [deltaTime] of a frame that lasted [ms] milliseconds. *)
Definition dt_of_ms (ms : Z) : float :=
  Float32.div (Float32.of_Z ms) (Float32.of_Z 1000).

(** The [float] nearest to 1/60. *)
Definition one_sixtieth : float :=
  Float32.div (Float32.of_Z 1) (Float32.of_Z 60).

(** A sprite one unit left of the right screen edge, moving right. *)
Definition near_right_edge : Sprite :=
  mkSprite (Rect.mk 749 300 50 50) 1 0 100 1%N.

(** A collection of two sprites far from each other. *)
Definition two_apart : list Sprite :=
  [mkSprite (Rect.mk 100 100 50 50) 2 1 50 2%N; near_right_edge].

(** Two sprites with identical bounds and opposite horizontal speeds. *)
Definition overlapping_a : Sprite := mkSprite (Rect.mk 100 100 50 50) 2 0 9 1%N.
Definition overlapping_b : Sprite := mkSprite (Rect.mk 100 100 50 50) (-2) 0 9 2%N.

(** A state of the main loop with two sprites of lifetimes 2 and 5. *)
Definition tracked_example : Game (RandState := Z) :=
  mkGame [mkSprite (Rect.mk 100 100 50 50) 2 1 2 1%N;
          mkSprite (Rect.mk 400 300 50 50) (-3) 4 5 2%N] 0 0 1.

(** ** Startup: loading the textures *)

Section Loading.

(** The two SDL calls [loadTexture] makes: [IMG_Load], which returns no
    surface when the file cannot be read, and
    [SDL_CreateTextureFromSurface], whose null result is the texture [0]. *)
Context {Surface : Type}.
Variable IMG_Load : string → option Surface.
Variable SDL_CreateTextureFromSurface : Surface → SDL_Texture.

(** What [loadTexture] does besides returning: the message on [std::cerr]
    and [SDL_FreeSurface]. *)
Inductive LoadEvent : Type :=
  | ReportLoadFailure (path : string)
  | FreeSurface (surface : Surface).

Definition loadTexture (path : string) : SDL_Texture * list LoadEvent :=
  match IMG_Load path with
  | None => (0%N, [ReportLoadFailure path])
  | Some surface =>
      (SDL_CreateTextureFromSurface surface, [FreeSurface surface])
  end.

(** The three [push_back]s of [main]. *)
Definition load_textures : list SDL_Texture :=
  [(loadTexture "assets/char1.png"%string).1;
   (loadTexture "assets/char2.png"%string).1;
   (loadTexture "assets/char3.png"%string).1].

(** The loop [for (i = 0; i < textures.size(); ++i) if (!textures[i])
    ... return 1;] from index [i] on: the index at which it returns, or
    none when it runs to the end. *)
Fixpoint find_missing (fuel i : nat) (textures : list SDL_Texture)
    : option (option nat) :=
  match fuel with
  | O => None
  | S fuel =>
      if bool_decide (i < length textures)%nat
      then t ← textures !! i;
           if bool_decide (t = 0%N) then Some (Some i)
           else find_missing fuel (S i) textures
      else Some None
  end.

Definition check_textures (textures : list SDL_Texture) : option (option nat) :=
  find_missing (S (length textures)) 0 textures.

(** How [main] leaves its startup: with the exit code and the texture
    number it printed, or into the main loop with the registry. *)
Inductive Startup : Type :=
  | StartupFailed (exit_code : Z) (reported : nat)
  | Started (textures : list SDL_Texture).

Definition startup : option Startup :=
  missing ← check_textures load_textures;
  Some (match missing with
        | Some i => StartupFailed 1 (i + 1)
        | None => Started load_textures
        end).

(** A file that loads and gives a texture other than null. *)
Definition usable (path : string) : Prop :=
  ∃ surface, IMG_Load path = Some surface ∧
             SDL_CreateTextureFromSurface surface ≠ 0%N.

End Loading.

(** The state [main] enters its loop with: no sprite, [spawnTimer = 0],
    [lastTime] the tick count read before the loop and the generator as
    [srand] left it. *)
Definition initial_game {RandState : Type} (ticks : Z) (g : RandState)
    : Game (RandState := RandState) :=
  mkGame [] 0 ticks g.

(** The render loop: one [SDL_RenderCopy] per sprite, in order, with its
    texture and its rectangle. *)
Definition draw_calls (sprites : list Sprite) : list (SDL_Texture * SDL_Rect) :=
  (λ s, (texture s, rect s)) <$> sprites.

(** ** Further reference descriptions *)

(** The slider is left alone in every frame. *)
Definition no_slider (inputs : list Input) : Prop :=
  Forall (λ inp, slider inp = None) inputs.

(** Whenever the slider is moved, it is to a value from [lo] to [hi]. *)
Definition slider_within (lo hi : Z) (inputs : list Input) : Prop :=
  Forall (λ inp, from_option (λ z, lo ≤ z ≤ hi) True (slider inp)) inputs.

(** The lifetimes of [l] are bounded by [b], [b - d], [b - 2 d], ... *)
Fixpoint staggered (b d : Z) (l : list Sprite) : Prop :=
  match l with
  | [] => True
  | s :: l => lifetime s ≤ b ∧ staggered (b - d) d l
  end.

(** The invariant of the main loop when the slider is left alone: read
    from the youngest sprite back, each sprite is 31 frames older than the
    one before. *)
Definition paced {RandState : Type} (st : Game (RandState := RandState))
    : Prop :=
  Forall alive (sprites st) ∧ 0 ≤ spawnTimer st ≤ 30 ∧
  staggered (398 - spawnTimer st) 31 (reverse (sprites st)).

(** The invariant of the main loop whatever the slider does: each sprite
    is at least one frame older than the one spawned after it. *)
Definition crowded {RandState : Type} (st : Game (RandState := RandState))
    : Prop :=
  Forall alive (sprites st) ∧ staggered 398 1 (reverse (sprites st)).

(** The speeds of [s] are [int]s other than [INT_MIN], which negation
    would leave as it is. *)
Definition speeds_negatable (s : Sprite) : Prop :=
  INT_MIN < speedX s ≤ INT_MAX ∧ INT_MIN < speedY s ≤ INT_MAX.

(** [s'] has the speeds of [s] up to their signs. *)
Definition same_speed_magnitude (s s' : Sprite) : Prop :=
  Z.abs (speedX s') = Z.abs (speedX s) ∧ Z.abs (speedY s') = Z.abs (speedY s).

(** Negatable speeds keep their magnitude and stay negatable. *)
Definition steady (s s' : Sprite) : Prop :=
  speeds_negatable s → same_speed_magnitude s s' ∧ speeds_negatable s'.

(** The size and the speed magnitudes the spawner gives a sprite. *)
Definition spawner_shape (s : Sprite) : Prop :=
  Rect.w (rect s) = 50 ∧ Rect.h (rect s) = 50 ∧
  1 ≤ Z.abs (speedX s) ≤ 5 ∧ 1 ≤ Z.abs (speedY s) ≤ 5.

(** [speed * (ms / 1000) * 60] in exact arithmetic, truncated toward
    zero. *)
Definition exact_displacement (speed ms : Z) : Z :=
  (speed * ms * 60) `quot` 1000.

(** The [float] displacement is the exact one, or one unit nearer to
    zero. *)
Definition displacement_close (speed ms : Z) : bool :=
  let d := displacement speed (dt_of_ms ms) in
  let e := exact_displacement speed ms in
  bool_decide (d = e) || bool_decide (d = e - Z.sgn e).

Definition displacement_close_upto (vmax msmax : Z) : bool :=
  forallb (λ v, forallb (displacement_close v) (seqZ 0 (msmax + 1)))
          (seqZ (- vmax) (2 * vmax + 1)).


(** Whether the visit of the pair [p] finds the two sprites colliding. *)
Definition pair_collides (v : list Sprite) (p : nat * nat) : bool :=
  match v !! p.1, v !! p.2 with
  | Some a, Some b => checkCollision (rect a) (rect b)
  | _, _ => false
  end.

(** The sprite at index [i] takes part in no collision while the pairs
    [ps] are visited in order from [v]: every visit of a pair with [i] in
    it finds no collision in the vector as the earlier visits left it. *)
Fixpoint spared (i : nat) (v : list Sprite) (ps : list (nat * nat)) : bool :=
  match ps with
  | [] => true
  | p :: ps =>
      (negb (bool_decide (p.1 = i ∨ p.2 = i)) || negb (pair_collides v p))
      && spared i (resolve_pair v p) ps
  end.

(** The sprite at index [i] of [v] takes part in no collision in the
    step over [dt]; the other sprites may collide with each other. *)
Definition collides_with_none (dt : float) (i : nat) (v : list Sprite) : bool :=
  spared i (update_sprite dt <$> v) (index_pairs (length v)).

(** A sprite whose lifetime is still positive after the [lifetime--] of
    the step. *)
Definition survives_step (s : Sprite) : Prop := 0 < lifetime s -i 1.

#[global] Instance survives_step_dec (s : Sprite) : Decision (survives_step s) :=
  decide (0 < lifetime s -i 1).


(** ** Further example data *)

(** An [IMG_Load] under which every file loads, the surface being the
    path itself, and a texture maker that never returns null. *)
Definition every_file_loads (path : string) : option string := Some path.
Definition texture_of_surface (surface : string) : SDL_Texture :=
  N.succ (N.of_nat (String.length surface)).

(** Frames of 17 ms with the slider left alone. *)
Definition frames_of_17ms (n : nat) : list Input :=
  (λ k, mkInput None (17 * Z.of_nat k)) <$> seq 1 n.

(** Three frames in which the slider is moved to 60, left alone and moved
    to 0. *)
Definition slider_moves : list Input :=
  [mkInput (Some 60) 16; mkInput None 33; mkInput (Some 0) 50].

(** A frame whose tick count has wrapped around since the last one. *)
Definition before_wrap : Game (RandState := Z) := mkGame [] 0 4294967290 1.
Definition after_wrap : Input := mkInput None 10.

(** Two sprites with speeds of magnitudes 2, 3 and 4, 1. *)
Definition two_speeds : list Sprite :=
  [mkSprite (Rect.mk 100 100 50 50) 2 (-3) 50 1%N;
   mkSprite (Rect.mk 120 110 50 50) (-4) 1 50 2%N].



(** A frame in which the slider is moved to 45. *)
Definition slider_to_45 : Input := mkInput (Some 45) 67.

(** [near_right_edge] with a faster sprite coming up behind it. *)
Definition chased : list Sprite :=
  [mkSprite (Rect.mk 695 300 50 50) 5 0 100 2%N; near_right_edge].

(** In-range lookups through [alter]. *)
Ltac simplify_alter :=
  repeat first
    [ rewrite list_lookup_alter_eq
    | rewrite list_lookup_alter_ne by done ].

(** ** Integer lemmas *)

Lemma wrap_int_range z : int_range (wrap_int z).
Proof.
  unfold int_range, wrap_int, INT_MIN, INT_MAX, UINT32_MOD.
  pose proof (Z.mod_pos_bound (z - -2147483648) 4294967296). lia.
Qed.

Lemma wrap_int_id z : int_range z → wrap_int z = z.
Proof.
  unfold int_range, wrap_int, INT_MIN, INT_MAX, UINT32_MOD. intros H.
  rewrite Z.mod_small; lia.
Qed.

Lemma wrap_int_eq a b : (a - b) `mod` UINT32_MOD = 0 → wrap_int a = wrap_int b.
Proof.
  unfold wrap_int, INT_MIN, UINT32_MOD. intros H. f_equal.
  apply Z.mod_divide in H; [|done]. destruct H as [k Hk].
  replace (a - -2147483648) with (b - -2147483648 + k * 4294967296) by lia.
  apply Z.mod_add. done.
Qed.

Lemma wrap_int_add_l a b : wrap_int (wrap_int a + b) = wrap_int (a + b).
Proof.
  apply wrap_int_eq. unfold wrap_int, INT_MIN, UINT32_MOD.
  pose proof (Z.div_mod (a - -2147483648) 4294967296).
  apply Z.mod_divide; [done|].
  exists (- ((a - -2147483648) `div` 4294967296)). lia.
Qed.

Lemma int_neg_nonzero v : int_range v → v ≠ 0 → int_neg v ≠ 0.
Proof.
  unfold int_neg, int_range, INT_MIN, INT_MAX. intros Hr Hv.
  destruct (decide (v = -2147483648)) as [->|]; [done|].
  rewrite wrap_int_id; [lia|]. unfold int_range, INT_MIN, INT_MAX. lia.
Qed.

(** ** Loop lemmas *)

(** A counted loop whose body keeps the size of the vector runs its body
    once for each index from the start to the size, in increasing order. *)
Lemma while_for (body : nat → list Sprite → option (list Sprite))
    (g : list Sprite → nat → list Sprite) (lo : nat) :
  (∀ i v, (lo ≤ i < length v)%nat →
          body i v = Some (g v i) ∧ length (g v i) = length v) →
  ∀ n fuel i v, (lo ≤ i)%nat → (length v - i)%nat = n → (n < fuel)%nat →
    while fuel index_in_range (for_body body) (i, v)
    = Some (i `max` length v, foldl g v (seq i n))%nat.
Proof.
  intros Hbody. induction n as [|n IH]; intros fuel i v Hlo Hn Hfuel.
  - destruct fuel as [|fuel]; [lia|]. simpl.
    rewrite bool_decide_eq_false_2 by lia. do 2 f_equal. lia.
  - destruct fuel as [|fuel]; [lia|]. simpl.
    rewrite bool_decide_eq_true_2 by lia.
    destruct (Hbody i v) as [-> Hlen]; [lia|]. simpl.
    rewrite (IH fuel (S i) (g v i)) by lia.
    rewrite Hlen. do 2 f_equal. lia.
Qed.

Lemma foldl_alter_seq_app (f : Sprite → Sprite) (v pre : list Sprite) :
  foldl (λ v k, alter f k v) (pre ++ v) (seq (length pre) (length v))
  = pre ++ (f <$> v).
Proof.
  revert pre. induction v as [|s v IH]; intros pre; simpl; [done|].
  replace (alter f (length pre) (pre ++ s :: v)) with ((pre ++ [f s]) ++ v).
  - replace (S (length pre)) with (length (pre ++ [f s])).
    + rewrite IH. by rewrite <- app_assoc.
    + rewrite length_app. simpl. lia.
  - rewrite <- app_assoc. simpl.
    pose proof (alter_app_r f pre (s :: v) 0) as H.
    rewrite Nat.add_0_r in H. by rewrite H.
Qed.

Lemma update_positions_fmap dt v :
  update_positions dt v = Some (update_sprite dt <$> v).
Proof.
  unfold update_positions.
  erewrite (while_for _ (λ v k, alter (update_sprite dt) k v) 0%nat);
    [|intros i w Hi|lia|reflexivity|lia].
  - simpl. f_equal. rewrite Nat.sub_0_r. apply (foldl_alter_seq_app _ v []).
  - unfold modify. rewrite decide_True by lia. by rewrite length_alter.
Qed.

Lemma while_erase n : ∀ fuel it v,
  (length v - it)%nat = n → (n < fuel)%nat → (it ≤ length v)%nat →
  snd <$> while fuel not_at_end erase_or_advance (it, v)
  = Some (take it v ++ filter alive (drop it v)).
Proof.
  induction n as [|n IH]; intros fuel it v Hn Hfuel Hit.
  - destruct fuel as [|fuel]; [lia|]. simpl.
    rewrite bool_decide_eq_false_2 by lia. simpl.
    rewrite drop_ge by lia. rewrite take_ge by lia. by rewrite app_nil_r.
  - destruct fuel as [|fuel]; [lia|]. simpl.
    rewrite bool_decide_eq_true_2 by lia.
    destruct (lookup_lt_is_Some_2 v it) as [s Hs]; [lia|].
    rewrite Hs. simpl. rewrite (drop_S v s it) by done.
    case_bool_decide as Hlife.
    + simpl. rewrite IH.
      * rewrite delete_take_drop, take_app_le, drop_app_ge by (rewrite ?length_take; lia).
        rewrite take_take, length_take.
        replace (it `min` it)%nat with it by lia.
        replace (it - it `min` length v)%nat with 0%nat by lia. simpl.
        rewrite filter_cons_False; [done|]. unfold alive. lia.
      * rewrite length_delete by eauto. lia.
      * lia.
      * rewrite length_delete by eauto. lia.
    + simpl. rewrite IH by lia.
      rewrite (take_S_r v it s) by done. rewrite <- app_assoc. simpl.
      rewrite filter_cons_True; [done|]. unfold alive. lia.
Qed.

Lemma remove_expired_filter v : remove_expired v = Some (filter alive v).
Proof.
  unfold remove_expired. by rewrite (while_erase (length v)) by lia.
Qed.

(** ** Collision loop lemmas *)

Lemma length_resolve_pair v p : length (resolve_pair v p) = length v.
Proof.
  unfold resolve_pair. destruct (v !! p.1), (v !! p.2); [|done..].
  destruct (checkCollision _ _); [|done]. by rewrite !length_insert.
Qed.

Lemma resolve_collision_pair i j v :
  (i < length v)%nat → (j < length v)%nat → i ≠ j →
  resolve_collision i j v = Some (resolve_pair v (i, j)).
Proof.
  intros Hi Hj Hne.
  destruct (lookup_lt_is_Some_2 v i Hi) as [a Ha].
  destruct (lookup_lt_is_Some_2 v j Hj) as [b Hb].
  unfold resolve_collision, resolve_pair. simpl. rewrite Ha, Hb. simpl.
  destruct (checkCollision (rect a) (rect b)); [|done].
  unfold modify.
  repeat (rewrite decide_True by (rewrite ?length_alter; lia); simpl).
  repeat (simplify_alter; rewrite ?Ha, ?Hb; simpl;
          try case_bool_decide; simpl;
          repeat (rewrite decide_True by (rewrite ?length_alter; lia); simpl)).
  all: f_equal; apply list_eq; intros k.
  all: destruct (decide (k = i)) as [->|Hki];
         [|destruct (decide (k = j)) as [->|Hkj]].
  all: rewrite ?list_lookup_insert_eq, ?list_lookup_insert_ne,
                   ?list_lookup_insert_eq by (rewrite ?length_insert; done).
  all: simplify_alter; rewrite ?Ha, ?Hb; simpl; try done.
Qed.

Lemma collide_with_later_foldl i v :
  collide_with_later i v
  = Some (foldl resolve_pair v ((λ j, (i, j)) <$> seq (S i) (length v - S i))).
Proof.
  unfold collide_with_later.
  erewrite (while_for _ (λ v j, resolve_pair v (i, j)) (S i));
    [|intros j w Hj|lia|reflexivity|lia].
  - simpl. by rewrite foldl_fmap.
  - rewrite resolve_collision_pair by lia.
    by rewrite length_resolve_pair.
Qed.

Lemma length_foldl_resolve_pair ps v :
  length (foldl resolve_pair v ps) = length v.
Proof.
  revert v. induction ps as [|p ps IH]; intros v; simpl; [done|].
  by rewrite IH, length_resolve_pair.
Qed.

Lemma foldl_rows n (rows : list nat) v :
  length v = n →
  foldl (λ v i, foldl resolve_pair v
                  ((λ j, (i, j)) <$> seq (S i) (length v - S i))) v rows
  = foldl resolve_pair v
      (i ← rows; (λ j, (i, j)) <$> seq (S i) (n - S i)).
Proof.
  revert v. induction rows as [|i rows IH]; intros v Hn; simpl; [done|].
  rewrite foldl_app, Hn. apply IH.
  by rewrite length_foldl_resolve_pair.
Qed.

Lemma handle_collisions_foldl v :
  handle_collisions v = Some (foldl resolve_pair v (index_pairs (length v))).
Proof.
  unfold handle_collisions.
  erewrite (while_for _
    (λ v i, foldl resolve_pair v ((λ j, (i, j)) <$> seq (S i) (length v - S i)))
    0%nat); [|intros i w Hi|lia|reflexivity|lia].
  - simpl. f_equal. rewrite Nat.sub_0_r. by apply foldl_rows.
  - rewrite collide_with_later_foldl. by rewrite length_foldl_resolve_pair.
Qed.

Lemma elem_of_index_pairs n i j :
  (i, j) ∈ index_pairs n ↔ (i < j < n)%nat.
Proof.
  unfold index_pairs. rewrite list_elem_of_bind. split.
  - intros (i' & Hj & Hi'). apply list_elem_of_fmap in Hj as (j' & Heq & Hj').
    simplify_eq. apply elem_of_seq in Hj'. apply elem_of_seq in Hi'. lia.
  - intros H. exists i. split.
    + apply list_elem_of_fmap. exists j. split; [done|]. apply elem_of_seq. lia.
    + apply elem_of_seq. lia.
Qed.

Lemma NoDup_index_pairs n : NoDup (index_pairs n).
Proof.
  unfold index_pairs. apply NoDup_bind.
  - intros i1 i2 p _ _ H1 H2.
    apply list_elem_of_fmap in H1 as (j1 & -> & _).
    apply list_elem_of_fmap in H2 as (j2 & Heq & _). by simplify_eq.
  - intros i _. apply NoDup_fmap_2; [|apply NoDup_seq].
    intros j1 j2 Heq. by simplify_eq.
  - apply NoDup_seq.
Qed.
(** ** Float lemmas: negation commutes with every operation of the
    displacement *)

Lemma binary_round_aux_negb s m e l :
  binary_round_aux Float32.prec Float32.emax (negb s) m e l
  = SFopp (binary_round_aux Float32.prec Float32.emax s m e l).
Proof.
  unfold binary_round_aux.
  destruct (shr_fexp _ _ m e l) as [mrs e'].
  destruct (shr_fexp _ _ _ e' loc_Exact) as [mrs' e''].
  destruct (shr_m mrs'); [done| |done].
  by destruct (Z.leb _ _).
Qed.

Lemma of_Z_opp z : z ≠ 0 → Float32.of_Z (- z) = Float32.opp (Float32.of_Z z).
Proof.
  intros Hz. unfold Float32.of_Z, Float32.opp, binary_normalize, binary_round.
  destruct z as [|p|p]; [done|..]; simpl;
    destruct (shl_align _ _ _) as [mz ez].
  - apply (binary_round_aux_negb false).
  - rewrite (binary_round_aux_negb false).
    by destruct (binary_round_aux _ _ _ _ _ _) as [[]|[]| |[]].
Qed.

Lemma mul_opp_l a b :
  Float32.mul (Float32.opp a) b = Float32.opp (Float32.mul a b).
Proof.
  unfold Float32.mul, Float32.opp.
  destruct a as [sa|sa| |sa ma ea], b as [sb|sb| |sb mb eb]; simpl;
    try done; try by destruct sa, sb.
  replace (xorb (negb sa) sb) with (negb (xorb sa sb)) by by destruct sa, sb.
  apply binary_round_aux_negb.
Qed.

Lemma truncate_opp f :
  Float32.truncate (Float32.opp f) = Z.opp <$> Float32.truncate f.
Proof.
  destruct f as [s|s| |s m e]; simpl; try done.
  f_equal. destruct s; simpl; lia.
Qed.

Lemma to_int_opp f :
  (Float32.to_int f + Float32.to_int (Float32.opp f)) `mod` UINT32_MOD = 0.
Proof.
  unfold Float32.to_int. rewrite truncate_opp.
  destruct (Float32.truncate f) as [z|]; simpl; [|done].
  unfold INT_MIN, INT_MAX, UINT32_MOD.
  destruct (decide (-2147483648 ≤ z ≤ 2147483647)),
    (decide (-2147483648 ≤ - z ≤ 2147483647)).
  - by replace (z + - z) with 0 by lia.
  - by assert (z = -2147483648) as -> by lia.
  - by assert (z = 2147483648) as -> by lia.
  - done.
Qed.

Lemma displacement_opp v dt :
  v ≠ 0 → (displacement v dt + displacement (- v) dt) `mod` UINT32_MOD = 0.
Proof.
  intros Hv. unfold displacement.
  rewrite of_Z_opp, !mul_opp_l by done. apply to_int_opp.
Qed.
(** ** The step in closed form *)

Lemma filter_alive_idemp (v : list Sprite) :
  filter alive (filter alive v) = filter alive v.
Proof. rewrite list_filter_filter. apply list_filter_iff. tauto. Qed.

Lemma expire_filter v : expire v = Some (filter alive v).
Proof.
  unfold expire. rewrite remove_expired_filter. simpl.
  by rewrite remove_expired_filter, filter_alive_idemp.
Qed.

Lemma simulation_step_eq dt v :
  simulation_step dt v = Some (filter alive (pre_expiry dt v)).
Proof.
  unfold simulation_step, pre_expiry. rewrite update_positions_fmap. simpl.
  rewrite handle_collisions_foldl. simpl.
  by rewrite expire_filter, length_fmap.
Qed.

Lemma Forall2_insert_r {A B} (R : A → B → Prop) l k i x y :
  Forall2 R l k → l !! i = Some x → R x y → Forall2 R l (<[i:=y]> k).
Proof.
  intros HR Hx Hxy. rewrite <- (list_insert_id l i x) by done.
  by apply Forall2_insert.
Qed.

Lemma Forall2_and_l {A B} (P : A → Prop) (R : A → B → Prop) l k :
  Forall P l → Forall2 R l k → Forall2 (λ x y, P x ∧ R x y) l k.
Proof.
  intros HP HR. induction HR; inversion_clear HP; constructor; auto.
Qed.

Lemma resolve_pair_kept v p : Forall2 kept v (resolve_pair v p).
Proof.
  assert (Forall2 kept v v) as Hrefl.
  { apply Forall_Forall2_diag, Forall_forall. by intros s _. }
  unfold resolve_pair.
  destruct (v !! p.1) as [a|] eqn:Ha; [|done].
  destruct (v !! p.2) as [b|] eqn:Hb; [|done].
  destruct (checkCollision _ _); [|done].
  apply Forall2_insert_r with b; [|done|done].
  by apply Forall2_insert_r with a.
Qed.

Lemma foldl_resolve_pair_kept ps v : Forall2 kept v (foldl resolve_pair v ps).
Proof.
  revert v. induction ps as [|p ps IH]; intros v; simpl.
  - apply Forall_Forall2_diag, Forall_forall. by intros s _.
  - eapply Forall2_trans; [|apply resolve_pair_kept|apply IH].
    intros s1 s2 s3 (? & ? & ? & ?) (? & ? & ? & ?).
    repeat split; congruence.
Qed.

Lemma update_sprite_aged dt s : aged_once s (update_sprite dt s).
Proof.
  unfold update_sprite, aged_once, same_identity.
  by destruct (hits_x_bound _), (hits_y_bound _).
Qed.

Lemma pre_expiry_aged dt v : Forall2 aged_once v (pre_expiry dt v).
Proof.
  unfold pre_expiry.
  apply Forall2_trans with aged_once kept (update_sprite dt <$> v).
  - intros s1 s2 s3 (? & ? & ? & ?) (? & ? & ? & ?).
    repeat split; congruence.
  - apply Forall2_fmap_r, Forall_Forall2_diag, Forall_forall.
    intros s _. apply update_sprite_aged.
  - apply foldl_resolve_pair_kept.
Qed.
(** ** Spawner lemmas *)

Lemma int_rem_bound r n :
  0 ≤ r → 0 < n ≤ INT_MAX → ∃ q, int_rem r n = Some q ∧ 0 ≤ q < n.
Proof.
  intros Hr Hn. unfold int_rem. rewrite decide_False by lia.
  pose proof (Z.rem_bound_pos r n Hr ltac:(lia)) as Hq.
  eexists. split; [done|]. rewrite wrap_int_id; [done|].
  unfold int_range, INT_MIN, INT_MAX in *. lia.
Qed.

Lemma size_rem_lookup {A} r (l : list A) :
  l ≠ [] → ∃ i x, size_rem r (length l) = Some i ∧ l !! i = Some x.
Proof.
  intros Hl. unfold size_rem.
  assert (length l ≠ 0%nat) as Hlen by by destruct l.
  rewrite decide_False by done.
  pose proof (Z.mod_pos_bound (r `mod` 2 ^ 64) (Z.of_nat (length l))).
  destruct (lookup_lt_is_Some_2 l
    (Z.to_nat ((r `mod` 2 ^ 64) `mod` Z.of_nat (length l)))) as [x Hx]; [lia|].
  eauto.
Qed.

Lemma signed_magnitude m (b : bool) :
  0 ≤ m < 5 → 1 ≤ Z.abs ((m +i 1) *i (if b then 1 else -1)) ≤ 5 ∧
              int_range ((m +i 1) *i (if b then 1 else -1)) ∧
              (0 < (m +i 1) *i (if b then 1 else -1) ↔ b = true).
Proof.
  intros Hm. unfold int_add, int_mul.
  rewrite (wrap_int_id (m + 1)) by (unfold int_range, INT_MIN, INT_MAX; lia).
  rewrite wrap_int_id by (unfold int_range, INT_MIN, INT_MAX; destruct b; lia).
  unfold int_range, INT_MIN, INT_MAX. destruct b; repeat split; try lia; done.
Qed.

Section Spawn.
Context {RandState : Type} (rand : RandState → Z * RandState).
Hypothesis rand_range : ∀ g, 0 ≤ (rand g).1 ≤ INT_MAX.

Lemma spawnSprite_bounds textures g :
  textures ≠ [] →
  ∃ s g', spawnSprite rand textures g = Some (s, g') ∧
    Rect.w (rect s) = 50 ∧ Rect.h (rect s) = 50 ∧
    0 ≤ Rect.x (rect s) < SCREEN_WIDTH - 50 ∧
    0 ≤ Rect.y (rect s) < SCREEN_HEIGHT - 50 ∧
    1 ≤ Z.abs (speedX s) ≤ 5 ∧ 1 ≤ Z.abs (speedY s) ≤ 5 ∧
    100 ≤ lifetime s < 400 ∧ texture s ∈ textures.
Proof.
  intros Htex. unfold spawnSprite.
  repeat match goal with
  | |- context [rand ?g] =>
      let r := fresh "r" in let g' := fresh "g" in let H := fresh "Hr" in
      pose proof (rand_range g) as H;
      destruct (rand g) as [r g']; simpl in H
  end.
  destruct (int_rem_bound r (SCREEN_WIDTH -i 50)) as (x & -> & Hx);
    [lia|done|].
  destruct (int_rem_bound r0 (SCREEN_HEIGHT -i 50)) as (y & -> & Hy);
    [lia|done|].
  destruct (int_rem_bound r1 5) as (mx & -> & Hmx); [lia|done|].
  destruct (int_rem_bound r2 2) as (sx & -> & Hsx); [lia|done|].
  destruct (int_rem_bound r3 5) as (my & -> & Hmy); [lia|done|].
  destruct (int_rem_bound r4 2) as (sy & -> & Hsy); [lia|done|].
  destruct (int_rem_bound r5 300) as (life & -> & Hlife); [lia|done|].
  destruct (size_rem_lookup r6 textures Htex) as (i & t & -> & Ht).
  simpl.
  rewrite Ht. simpl. eexists _, _. split; [done|]. simpl.
  change (SCREEN_WIDTH -i 50) with 750 in Hx.
  change (SCREEN_HEIGHT -i 50) with 550 in Hy.
  unfold SCREEN_WIDTH, SCREEN_HEIGHT.
  pose proof (signed_magnitude mx (bool_decide (sx ≠ 0)) Hmx) as (Hvx & _).
  pose proof (signed_magnitude my (bool_decide (sy ≠ 0)) Hmy) as (Hvy & _).
  rewrite <- !decide_bool_decide in *.
  repeat split; try lia.
  - unfold int_add. rewrite wrap_int_id; [lia|].
    unfold int_range, INT_MIN, INT_MAX. lia.
  - unfold int_add. rewrite wrap_int_id; [lia|].
    unfold int_range, INT_MIN, INT_MAX. lia.
  - by eapply list_elem_of_lookup_2.
Qed.

End Spawn.

(** ** Frame lemmas *)

Section Frames.
Context {RandState : Type} (rand : RandState → Z * RandState).

Lemma spawnSprite_total textures g :
  textures ≠ [] → is_Some (spawnSprite rand textures g).
Proof.
  intros Htex. unfold spawnSprite.
  repeat match goal with
  | |- context [rand ?g] => destruct (rand g) as [? ?]
  end. simpl.
  destruct (size_rem_lookup z6 textures Htex) as (i & t & -> & Ht). simpl.
  rewrite Ht. simpl. eauto.
Qed.

(** A frame appends at most one spawned sprite and then steps. *)
Lemma frame_eq textures inp st :
  textures ≠ [] →
  ∃ new st', frame rand textures inp st = Some st' ∧
    sprites st' = filter alive (pre_expiry (frame_deltaTime inp st) (sprites st ++ new)) ∧
    Forall (λ s, ∃ g g', spawnSprite rand textures g = Some (s, g')) new.
Proof.
  intros Htex. unfold frame. case_bool_decide.
  - destruct (spawnSprite_total textures (rng st) Htex) as [[s g] Hs].
    rewrite Hs. simpl. rewrite simulation_step_eq. simpl.
    exists [s]. eexists. split; [done|]. split; [done|].
    constructor; [eauto|constructor].
  - simpl. rewrite simulation_step_eq. simpl.
    exists []. eexists. split; [done|]. rewrite app_nil_r. split; [done|].
    constructor.
Qed.

Section Ageing.
Variable v0 : list Sprite.
Hypothesis v0_range : Forall (λ s, 0 < lifetime s ≤ INT_MAX) v0.

Lemma filter_older k :
  0 ≤ k →
  filter (λ s, k + 1 < lifetime s) (filter (λ s, k < lifetime s) v0)
  = filter (λ s, k + 1 < lifetime s) v0.
Proof. intros Hk. rewrite list_filter_filter. apply list_filter_iff. lia. Qed.

Lemma step_ages dt k surv rest :
  0 ≤ k →
  Forall2 (aged k) (filter (λ s, k < lifetime s) v0) surv →
  ∃ surv' rest',
    filter alive (pre_expiry dt (surv ++ rest)) = surv' ++ rest' ∧
    Forall2 (aged (k + 1)) (filter (λ s, k + 1 < lifetime s) v0) surv'.
Proof.
  intros Hk Hsurv.
  destruct (Forall2_app_inv_l aged_once surv rest (pre_expiry dt (surv ++ rest)))
    as [H _]. destruct H as (A & B & HA & _ & ->); [apply pre_expiry_aged|].
  exists (filter alive A), (filter alive B). split; [apply filter_app|].
  rewrite <- filter_older by done.
  set (R := λ s s' : Sprite,
              (k < lifetime s ≤ INT_MAX) ∧ aged (k + 1) s s').
  apply Forall2_impl with R; [|by intros s s' [_ ?]].
  apply Forall2_filter.
  { intros s s' (Hs & Hlife & _). unfold alive. lia. }
  apply Forall2_trans with
    (λ s s', (k < lifetime s ≤ INT_MAX) ∧ aged k s s') aged_once surv;
    [|apply Forall2_and_l; [|done]|done].
  - intros s1 s2 s3 (Hs & Hlife & ? & ? & ?) (Hlife' & ? & ? & ?).
    split; [done|]. split; [|repeat split; congruence].
    rewrite Hlife', Hlife. unfold int_sub. rewrite wrap_int_id; [lia|].
    unfold int_range, INT_MIN, INT_MAX in *. lia.
  - apply Forall_forall. intros s Hs. apply list_elem_of_filter in Hs as [Hk' Hs].
    eapply Forall_forall in v0_range; [|done]. simpl in v0_range. lia.
Qed.

Lemma run_ages textures inputs :
  textures ≠ [] →
  ∀ k st surv rest,
    0 ≤ k → sprites st = surv ++ rest →
    Forall2 (aged k) (filter (λ s, k < lifetime s) v0) surv →
    ∃ st' surv' rest',
      run rand textures inputs st = Some st' ∧
      sprites st' = surv' ++ rest' ∧
      Forall2 (aged (k + Z.of_nat (length inputs)))
        (filter (λ s, k + Z.of_nat (length inputs) < lifetime s) v0) surv'.
Proof.
  intros Htex. induction inputs as [|inp inputs IH];
    intros k st surv rest Hk Hst Hsurv; simpl.
  - exists st, surv, rest. rewrite Z.add_0_r. done.
  - destruct (frame_eq textures inp st Htex) as (new & st1 & -> & Hst1 & _).
    simpl. rewrite Hst, <- app_assoc in Hst1.
    destruct (step_ages (frame_deltaTime inp st) k surv (rest ++ new) Hk Hsurv)
      as (surv1 & rest1 & Heq & Hsurv1).
    rewrite Heq in Hst1.
    destruct (IH (k + 1) st1 surv1 rest1 ltac:(lia) Hst1 Hsurv1)
      as (st' & surv' & rest' & Hrun & Hst' & Hsurv').
    exists st', surv', rest'. split; [done|]. split; [done|].
    replace (k + Z.of_nat (S (length inputs)))
      with (k + 1 + Z.of_nat (length inputs)) by lia.
    done.
Qed.

End Ageing.
End Frames.

(** ** Speeds stay nonzero *)

Lemma int_neg_range v : int_range (int_neg v).
Proof. apply wrap_int_range. Qed.

Lemma update_sprite_speedX dt s :
  speedX (update_sprite dt s) = speedX s ∨
  speedX (update_sprite dt s) = int_neg (speedX s).
Proof.
  unfold update_sprite.
  destruct (hits_x_bound _), (hits_y_bound _); simpl; auto.
Qed.

Lemma update_sprite_speedY dt s :
  speedY (update_sprite dt s) = speedY s ∨
  speedY (update_sprite dt s) = int_neg (speedY s).
Proof.
  unfold update_sprite.
  destruct (hits_x_bound _), (hits_y_bound _); simpl; auto.
Qed.

Lemma update_sprite_moving dt s : moving s → moving (update_sprite dt s).
Proof.
  intros (Hx & Hy & Hx0 & Hy0). unfold moving.
  destruct (update_sprite_speedX dt s) as [-> | ->],
    (update_sprite_speedY dt s) as [-> | ->];
    auto using int_neg_range, int_neg_nonzero.
Qed.

Lemma collision_response_moving a b :
  moving a → moving b →
  moving (collision_response a b).1 ∧ moving (collision_response a b).2.
Proof.
  intros (? & ? & ? & ?) (? & ? & ? & ?). unfold moving. simpl.
  auto 10 using int_neg_range, int_neg_nonzero.
Qed.

Lemma resolve_pair_moving v p :
  Forall moving v → Forall moving (resolve_pair v p).
Proof.
  intros Hv. unfold resolve_pair.
  destruct (v !! p.1) as [a|] eqn:Ha; [|done].
  destruct (v !! p.2) as [b|] eqn:Hb; [|done].
  destruct (checkCollision _ _); [|done].
  destruct (collision_response_moving a b) as [? ?];
    [by eapply Forall_lookup_1..|].
  by repeat apply Forall_insert.
Qed.

Lemma pre_expiry_moving dt v :
  Forall moving v → Forall moving (pre_expiry dt v).
Proof.
  intros Hv. unfold pre_expiry.
  assert (Forall moving (update_sprite dt <$> v)) as Hu.
  { apply Forall_fmap. eapply Forall_impl; [done|].
    intros s. apply update_sprite_moving. }
  revert Hu. generalize (update_sprite dt <$> v).
  induction (index_pairs (length v)) as [|p ps IH]; intros w Hw; simpl; [done|].
  by apply IH, resolve_pair_moving.
Qed.

Lemma filter_alive_moving v :
  Forall moving v → Forall moving (filter alive v).
Proof.
  rewrite !Forall_forall. intros Hv s Hs.
  apply list_elem_of_filter in Hs as [_ Hs]. auto.
Qed.

Lemma simulation_step_moving dt v :
  Forall moving v →
  ∃ v', simulation_step dt v = Some v' ∧ Forall moving v'.
Proof.
  intros Hv. rewrite simulation_step_eq. eexists. split; [done|].
  by apply filter_alive_moving, pre_expiry_moving.
Qed.

Section Moving.
Context {RandState : Type} (rand : RandState → Z * RandState).
Hypothesis rand_range : ∀ g, 0 ≤ (rand g).1 ≤ INT_MAX.

Lemma spawnSprite_moving textures g s g' :
  spawnSprite rand textures g = Some (s, g') → moving s.
Proof.
  intros Hs. destruct (decide (textures = [])) as [->|Htex].
  { unfold spawnSprite in Hs.
    repeat match type of Hs with
    | context [rand ?g] => destruct (rand g) as [? ?]
    end. simpl in Hs. done. }
  destruct (spawnSprite_bounds rand rand_range textures g Htex)
    as (s1 & g1 & Hs1 & _ & _ & _ & _ & Hvx & Hvy & _).
  rewrite Hs in Hs1. simplify_eq.
  unfold moving, int_range, INT_MIN, INT_MAX. lia.
Qed.

Lemma run_moving textures inputs :
  textures ≠ [] →
  ∀ st, Forall moving (sprites st) →
    ∃ st', run rand textures inputs st = Some st' ∧
           Forall moving (sprites st').
Proof.
  intros Htex. induction inputs as [|inp inputs IH]; intros st Hst; simpl.
  - eauto.
  - destruct (frame_eq rand textures inp st Htex) as (new & st1 & -> & Hst1 & Hnew).
    simpl. apply IH. rewrite Hst1.
    apply filter_alive_moving, pre_expiry_moving, Forall_app. split; [done|].
    eapply Forall_impl; [done|]. intros s (g & g' & Hs).
    by eapply spawnSprite_moving.
Qed.

End Moving.

(** ** Bounce lemmas *)

Lemma update_sprite_fields dt s :
  let x' := Rect.x (rect s) +i displacement (speedX s) dt in
  let y' := Rect.y (rect s) +i displacement (speedY s) dt in
  rect (update_sprite dt s) = Rect.mk x' y' (Rect.w (rect s)) (Rect.h (rect s)) ∧
  speedX (update_sprite dt s)
    = (if bool_decide (x' ≤ 0) || bool_decide (x' +i Rect.w (rect s) >= SCREEN_WIDTH)
       then int_neg (speedX s) else speedX s) ∧
  speedY (update_sprite dt s)
    = (if bool_decide (y' ≤ 0) || bool_decide (y' +i Rect.h (rect s) >= SCREEN_HEIGHT)
       then int_neg (speedY s) else speedY s) ∧
  lifetime (update_sprite dt s) = lifetime s -i 1 ∧
  texture (update_sprite dt s) = texture s.
Proof.
  unfold update_sprite, hits_x_bound, hits_y_bound. simpl.
  destruct (bool_decide (_ ≤ 0) || bool_decide (_ +i Rect.w _ >= _)); simpl;
    destruct (bool_decide (_ ≤ 0) || bool_decide (_ +i Rect.h _ >= _)); done.
Qed.

Lemma simulation_step_single dt s :
  simulation_step dt [s] = Some (filter alive [update_sprite dt s]).
Proof. by rewrite simulation_step_eq. Qed.

(** Integrating with a speed and then with the opposite speed, over the
    same [deltaTime], restores the coordinate. *)
Lemma integrate_back x v dt :
  int_range x → v ≠ 0 →
  x +i displacement v dt +i displacement (- v) dt = x.
Proof.
  intros Hx Hv. unfold int_add. rewrite wrap_int_add_l.
  rewrite <- (wrap_int_id x) at 2 by done. apply wrap_int_eq.
  replace (x + displacement v dt + displacement (- v) dt - x)
    with (displacement v dt + displacement (- v) dt) by lia.
  by apply displacement_opp.
Qed.

Lemma update_sprite_x dt s :
  Rect.x (rect (update_sprite dt s)) = Rect.x (rect s) +i displacement (speedX s) dt.
Proof. by destruct (update_sprite_fields dt s) as (-> & _). Qed.

Lemma update_sprite_w dt s :
  Rect.w (rect (update_sprite dt s)) = Rect.w (rect s).
Proof. by destruct (update_sprite_fields dt s) as (-> & _). Qed.

Lemma update_sprite_speedX_hit dt s :
  speedX (update_sprite dt s)
  = if hits_x_bound (set_x (Rect.x (rect s) +i displacement (speedX s) dt) s)
    then int_neg (speedX s) else speedX s.
Proof. by destruct (update_sprite_fields dt s) as (_ & -> & _). Qed.

Lemma hits_x_bound_ext s s' :
  Rect.x (rect s) = Rect.x (rect s') → Rect.w (rect s) = Rect.w (rect s') →
  hits_x_bound s = hits_x_bound s'.
Proof. unfold hits_x_bound. by intros -> ->. Qed.

Lemma bounce_back dt s :
  int_range (Rect.x (rect s)) → 0 < speedX s ≤ INT_MAX →
  hits_x_bound s = false →
  SCREEN_WIDTH ≤ Rect.x (rect (update_sprite dt s)) +i Rect.w (rect s) →
  speedX (update_sprite dt s) = - speedX s ∧
  speedX (update_sprite dt (update_sprite dt s)) = - speedX s ∧
  Rect.x (rect (update_sprite dt (update_sprite dt s))) = Rect.x (rect s).
Proof.
  intros Hx Hv Hin Hout.
  assert (int_neg (speedX s) = - speedX s) as Hneg.
  { apply wrap_int_id. unfold int_range, INT_MIN, INT_MAX in *. lia. }
  assert (speedX (update_sprite dt s) = - speedX s) as Hflip.
  { rewrite update_sprite_speedX_hit, <- Hneg.
    rewrite update_sprite_x in Hout. unfold hits_x_bound, set_x. cbn [rect Rect.x Rect.w].
    rewrite (bool_decide_eq_true_2 (_ >= _)) by lia.
    by rewrite orb_true_r. }
  split; [done|].
  assert (Rect.x (rect (update_sprite dt (update_sprite dt s)))
          = Rect.x (rect s)) as Hback.
  { rewrite !update_sprite_x, Hflip. apply integrate_back; [done|lia]. }
  split; [|done]. rewrite update_sprite_speedX_hit.
  rewrite (hits_x_bound_ext _ s), Hin; [done| |].
  - unfold set_x. cbn [rect Rect.x]. by rewrite <- update_sprite_x.
  - unfold set_x. cbn [rect Rect.w]. apply update_sprite_w.
Qed.

(** ** Auxiliary facts for the stated properties *)

Lemma checkCollision_true a b :
  checkCollision a b = true ↔
    Rect.x a < Rect.x b +i Rect.w b ∧ Rect.x a +i Rect.w a > Rect.x b ∧
    Rect.y a < Rect.y b +i Rect.h b ∧ Rect.y a +i Rect.h a > Rect.y b.
Proof.
  unfold checkCollision. rewrite !andb_true_iff, !bool_decide_eq_true. tauto.
Qed.

Lemma displacement_3_one_sixtieth : displacement 3 one_sixtieth = 3.
Proof. vm_compute. reflexivity. Qed.

Lemma msvc_rand_range g : 0 ≤ (msvc_rand g).1 ≤ INT_MAX.
Proof.
  unfold msvc_rand, INT_MAX. cbn [fst].
  pose proof (Z.mod_pos_bound
    (((g * 214013 + 2531011) `mod` UINT32_MOD) `div` 65536) 32768). lia.
Qed.

Lemma three_textures_nonempty : three_textures ≠ [].
Proof. discriminate. Qed.

Lemma filter_Forall_id {A} (P : A → Prop) `{!∀ x, Decision (P x)} (l : list A) :
  Forall P l → filter P l = l.
Proof.
  induction 1 as [|x l Hx _ IH]; [done|].
  by rewrite filter_cons_True, IH.
Qed.

Lemma aged_once_more k l surv A :
  Forall (λ s, k < lifetime s ≤ INT_MAX) l → 0 ≤ k →
  Forall2 (aged k) l surv → Forall2 aged_once surv A →
  Forall2 (aged (k + 1)) l A.
Proof.
  intros Hl Hk Hsurv HA.
  apply Forall2_trans with
    (λ s s', (k < lifetime s ≤ INT_MAX) ∧ aged k s s') aged_once surv;
    [|by apply Forall2_and_l|done].
  intros s1 s2 s3 (Hs & Hlife & ? & ? & ?) (Hlife' & ? & ? & ?).
  split; [|repeat split; congruence].
  rewrite Hlife', Hlife. unfold int_sub. rewrite wrap_int_id; [lia|].
  unfold int_range, INT_MIN, INT_MAX in *. lia.
Qed.

Lemma run_snoc {RandState : Type} (rand : RandState → Z * RandState)
    textures inputs inp st :
  run rand textures (inputs ++ [inp]) st
  = run rand textures inputs st ≫= frame rand textures inp.
Proof.
  revert st. induction inputs as [|i inputs IH]; intros st; simpl.
  - by destruct (frame _ _ _ _).
  - destruct (frame rand textures i st); simpl; [apply IH|done].
Qed.

(** After [k ≥ 1] frames, the vector the last expiration pass started from
    begins with the initial sprites of lifetime at least [k], in order,
    each aged by exactly [k]. *)
Lemma run_tracks {RandState : Type} (rand : RandState → Z * RandState)
    textures inputs (st : Game) :
  textures ≠ [] → inputs ≠ [] →
  Forall (λ s, 0 < lifetime s ≤ INT_MAX) (sprites st) →
  ∃ st' tracked others,
    run rand textures inputs st = Some st' ∧
    sprites st' = filter alive (tracked ++ others) ∧
    Forall2 (aged (Z.of_nat (length inputs)))
      (filter (λ s, Z.of_nat (length inputs) ≤ lifetime s) (sprites st))
      tracked.
Proof.
  intros Htex Hne Hv0.
  destruct inputs as [|i0 inputs0] using rev_ind; [done|]. clear IHinputs0 Hne.
  rename inputs0 into inputs, i0 into inp.
  destruct (run_ages rand (sprites st) Hv0 textures inputs Htex 0 st
              (sprites st) []) as (st1 & surv & rest & Hrun & Hst1 & Hsurv).
  { done. }
  { by rewrite app_nil_r. }
  { rewrite filter_Forall_id.
    - apply Forall_Forall2_diag, Forall_forall. intros s _.
      repeat split. lia.
    - eapply Forall_impl; [done|]. simpl. lia. }
  rewrite run_snoc, Hrun. simpl.
  destruct (frame_eq rand textures inp st1 Htex) as (new & st' & -> & Hst' & _).
  rewrite Hst1, <- app_assoc in Hst'.
  destruct (Forall2_app_inv_l aged_once surv (rest ++ new)
              (pre_expiry (frame_deltaTime inp st1) (surv ++ rest ++ new)))
    as [H _]. destruct H as (A & B & HA & _ & Heq); [apply pre_expiry_aged|].
  exists st', A, B. split; [done|]. split; [by rewrite Hst', Heq|].
  rewrite length_app. simpl.
  replace (Z.of_nat (length inputs + 1)) with (0 + Z.of_nat (length inputs) + 1)
    by lia.
  erewrite list_filter_iff.
  - eapply aged_once_more; [|lia|done|done].
    apply Forall_forall. intros s Hs.
    apply list_elem_of_filter in Hs as [Hk Hs].
    eapply Forall_forall in Hv0; [|done]. simpl in Hv0. lia.
  - intros s. simpl. lia.
Qed.

(** A step in which no pair collides and no sprite expires is the update
    of every sprite. *)
Lemma handle_collisions_no_collision v :
  no_collision v = true → handle_collisions v = Some v.
Proof.
  rewrite handle_collisions_foldl. unfold no_collision.
  generalize (index_pairs (length v)). intros ps Hps. f_equal.
  induction ps as [|p ps IH]; [done|].
  simpl in Hps. apply andb_true_iff in Hps as [Hp Hps]. simpl.
  replace (resolve_pair v p) with v; [by apply IH|].
  unfold resolve_pair. destruct (v !! p.1); [|done]. destruct (v !! p.2); [|done].
  by destruct (checkCollision _ _).
Qed.

Lemma quiet_step dt v m :
  0 ≤ m → Forall (λ s, m + 1 < lifetime s ≤ INT_MAX) v →
  no_collision (update_sprite dt <$> v) = true →
  simulation_step dt v = Some (update_sprite dt <$> v) ∧
  Forall (λ s, m < lifetime s ≤ INT_MAX) (update_sprite dt <$> v).
Proof.
  intros Hm Hv Hquiet.
  assert (Forall (λ s, m < lifetime s ≤ INT_MAX) (update_sprite dt <$> v)) as Hv'.
  { apply Forall_fmap. eapply Forall_impl; [done|]. intros s Hs.
    unfold compose. cbv beta in Hs.
    destruct (update_sprite_fields dt s) as (_ & _ & _ & -> & _).
    unfold int_sub. rewrite wrap_int_id; [lia|].
    unfold int_range, INT_MIN, INT_MAX in *. lia. }
  split; [|done]. unfold simulation_step.
  rewrite update_positions_fmap. simpl.
  rewrite handle_collisions_no_collision by done. simpl.
  rewrite expire_filter. f_equal. apply filter_Forall_id.
  eapply Forall_impl; [done|]. intros s Hs. unfold alive. simpl in Hs. lia.
Qed.

Lemma resolve_pair_speeds v p :
  Forall2 speeds_kept_or_negated v (resolve_pair v p).
Proof.
  assert (Forall2 speeds_kept_or_negated v v) as Hrefl.
  { apply Forall_Forall2_diag, Forall_forall. intros s _. split; by left. }
  unfold resolve_pair.
  destruct (v !! p.1) as [a|] eqn:Ha; [|done].
  destruct (v !! p.2) as [b|] eqn:Hb; [|done].
  destruct (checkCollision _ _); [|done].
  apply Forall2_insert_r with b; [|done|split; by right].
  apply Forall2_insert_r with a; [done|done|split; by right].
Qed.

(** * Further lemmas *)

(** ** Spawning and the spawn timer *)

Lemma spawnSprite_Some_nonempty {RandState : Type}
    (rand : RandState → Z * RandState) textures g sg :
  spawnSprite rand textures g = Some sg → textures ≠ [].
Proof.
  intros Hs ->. unfold spawnSprite in Hs.
  repeat match type of Hs with
  | context [rand ?g] => destruct (rand g) as [? ?]
  end. simpl in Hs. done.
Qed.

Section FrameCases.
Context {RandState : Type} (rand : RandState → Z * RandState).

Lemma frame_without_spawn textures inp (st : Game) :
  default (spawnTimer st) (slider inp) +i 1 ≤ 30 →
  frame rand textures inp st
  = Some (mkGame (filter alive (pre_expiry (frame_deltaTime inp st) (sprites st)))
            (default (spawnTimer st) (slider inp) +i 1)
            (currentTime inp) (rng st)).
Proof.
  intros Ht. unfold frame. rewrite bool_decide_eq_false_2 by lia.
  cbn [mbind option_bind]. by rewrite simulation_step_eq.
Qed.

Lemma frame_with_spawn textures inp (st : Game) s g' :
  default (spawnTimer st) (slider inp) +i 1 > 30 →
  spawnSprite rand textures (rng st) = Some (s, g') →
  frame rand textures inp st
  = Some (mkGame (filter alive (pre_expiry (frame_deltaTime inp st)
                                  (sprites st ++ [s])))
            0 (currentTime inp) g').
Proof.
  intros Ht Hs. unfold frame. rewrite bool_decide_eq_true_2 by lia.
  rewrite Hs. cbn [mbind option_bind]. by rewrite simulation_step_eq.
Qed.

End FrameCases.

Lemma int_add_small a b : int_range (a + b) → a +i b = a + b.
Proof. apply wrap_int_id. Qed.

Section Timer.
Context {RandState : Type} (rand : RandState → Z * RandState).

Lemma frame_spawn_timer_range textures inp (st st' : Game) :
  frame rand textures inp st = Some st' →
  (spawnTimer st' ≤ 30) ∧
  (-1 ≤ default (spawnTimer st) (slider inp) ≤ INT_MAX - 1 →
   0 ≤ spawnTimer st') ∧
  lastTime st' = currentTime inp.
Proof.
  unfold frame. intros Hf.
  destruct (bool_decide (default (spawnTimer st) (slider inp) +i 1 > 30)) eqn:Ht.
  - destruct (spawnSprite rand textures (rng st)) as [[s g']|]; [|done].
    cbn [mbind option_bind] in Hf.
    destruct (simulation_step _ _); [|done]. cbn [mbind option_bind] in Hf.
    injection Hf as <-. cbn. split; [lia|]. split; [lia|done].
  - apply bool_decide_eq_false in Ht. cbn [mbind option_bind] in Hf.
    destruct (simulation_step _ _); [|done]. cbn [mbind option_bind] in Hf.
    injection Hf as <-. cbn [spawnTimer lastTime]. split; [lia|].
    split; [|done]. intros Hr. rewrite int_add_small; [lia|].
    unfold int_range, INT_MIN, INT_MAX in *. lia.
Qed.

Lemma quiet_frames textures inputs :
  no_slider inputs →
  ∀ st : Game, sprites st = [] → 0 ≤ spawnTimer st →
    spawnTimer st + Z.of_nat (length inputs) ≤ 30 →
    ∃ st', run rand textures inputs st = Some st' ∧ sprites st' = [] ∧
           rng st' = rng st ∧
           spawnTimer st' = spawnTimer st + Z.of_nat (length inputs).
Proof.
  intros Hns. induction Hns as [|inp inputs Hinp Hns IH]; intros st Hempty H0 Ht.
  - exists st. cbn [length]. rewrite Z.add_0_r. done.
  - cbn [run]. cbn [length] in Ht. rewrite Nat2Z.inj_succ in Ht.
    assert (default (spawnTimer st) (slider inp) +i 1 = spawnTimer st + 1) as Hinc.
    { rewrite Hinp. cbn [default]. apply int_add_small.
      unfold int_range, INT_MIN, INT_MAX. lia. }
    rewrite (frame_without_spawn rand textures inp st) by (rewrite Hinc; lia).
    cbn [mbind option_bind]. rewrite Hempty.
    edestruct IH as (st' & -> & Hs' & Hg' & Ht'); [| | |exists st'].
    + reflexivity.
    + cbn [spawnTimer]. lia.
    + cbn [spawnTimer]. lia.
    + rewrite Hs', Hg', Ht'. cbn [spawnTimer rng length]. rewrite Hinc.
      repeat split. lia.
Qed.

Lemma run_spawn_timer textures inputs :
  textures ≠ [] → no_slider inputs →
  ∀ st : Game, 0 ≤ spawnTimer st ≤ 30 →
    ∃ st', run rand textures inputs st = Some st' ∧
           spawnTimer st' = (spawnTimer st + Z.of_nat (length inputs)) `mod` 31.
Proof.
  intros Htex Hns. induction Hns as [|inp inputs Hinp Hns IH]; intros st Ht.
  - exists st. split; [done|]. cbn [length]. rewrite Z.add_0_r, Z.mod_small; lia.
  - cbn [run].
    assert (default (spawnTimer st) (slider inp) +i 1 = spawnTimer st + 1) as Hinc.
    { rewrite Hinp. cbn [default]. apply int_add_small.
      unfold int_range, INT_MIN, INT_MAX. lia. }
    destruct (decide (spawnTimer st = 30)) as [H30|H30].
    + destruct (spawnSprite_total rand textures (rng st) Htex) as [[s g'] Hs].
      rewrite (frame_with_spawn rand textures inp st s g') by (rewrite ?Hinc; done || lia).
      cbn [mbind option_bind].
      destruct (IH (mkGame (filter alive (pre_expiry (frame_deltaTime inp st)
                       (sprites st ++ [s]))) 0 (currentTime inp) g'))
        as (st' & -> & Hst'); [cbn; lia|].
      exists st'. split; [done|]. rewrite Hst'. cbn [spawnTimer length].
      rewrite H30. rewrite Nat2Z.inj_succ.
      replace (30 + Z.succ (Z.of_nat (length inputs)))
        with (Z.of_nat (length inputs) + 1 * 31) by lia.
      by rewrite Z.mod_add.
    + rewrite (frame_without_spawn rand textures inp st) by (rewrite Hinc; lia).
      cbn [mbind option_bind].
      edestruct IH as (st' & -> & Hst'); [|exists st'; split; [done|]].
      * cbn [spawnTimer]. rewrite Hinc. lia.
      * rewrite Hst'. cbn [spawnTimer length]. rewrite Hinc, Nat2Z.inj_succ.
        f_equal. lia.
Qed.

Lemma run_spawn_timer_range textures inputs :
  textures ≠ [] → slider_within 0 60 inputs →
  ∀ st : Game, 0 ≤ spawnTimer st ≤ 30 →
    ∃ st', run rand textures inputs st = Some st' ∧ 0 ≤ spawnTimer st' ≤ 30.
Proof.
  intros Htex Hin. induction Hin as [|inp inputs Hinp Hin IH]; intros st Ht.
  - by exists st.
  - cbn [run].
    destruct (frame_eq rand textures inp st Htex) as (new & st1 & Hf & _).
    rewrite Hf. cbn [mbind option_bind]. apply IH.
    destruct (frame_spawn_timer_range textures inp st st1 Hf)
      as (Hle & Hge & _).
    split; [|exact Hle]. apply Hge.
    cbv beta in Hinp.
    destruct (slider inp) as [z|]; cbn [default from_option id] in *;
      unfold INT_MAX; lia.
Qed.

(** The spawn gate of a frame, by the value the timer has after the
    slider: from 30 on, the frame spawns and resets the timer; below 30 it
    increments the timer and leaves the generator alone. *)
Lemma frame_cases textures inp (st : Game) :
  textures ≠ [] →
  INT_MIN ≤ default (spawnTimer st) (slider inp) < INT_MAX →
  ∃ st', frame rand textures inp st = Some st' ∧
    (30 ≤ default (spawnTimer st) (slider inp) →
     spawnTimer st' = 0 ∧
     ∃ s, spawnSprite rand textures (rng st) = Some (s, rng st') ∧
          simulation_step (frame_deltaTime inp st) (sprites st ++ [s])
          = Some (sprites st')) ∧
    (default (spawnTimer st) (slider inp) < 30 →
     spawnTimer st' = default (spawnTimer st) (slider inp) + 1 ∧
     rng st' = rng st ∧
     simulation_step (frame_deltaTime inp st) (sprites st) = Some (sprites st')).
Proof.
  intros Htex Ht.
  assert (default (spawnTimer st) (slider inp) +i 1
          = default (spawnTimer st) (slider inp) + 1) as Hinc.
  { apply int_add_small. unfold int_range, INT_MIN, INT_MAX in *. lia. }
  destruct (decide (30 ≤ default (spawnTimer st) (slider inp))) as [Hge|Hlt].
  - destruct (spawnSprite_total rand textures (rng st) Htex) as [[s g'] Hs].
    rewrite (frame_with_spawn rand textures inp st s g')
      by (rewrite ?Hinc; exact Hs || lia).
    eexists. split; [reflexivity|]. cbn [spawnTimer rng sprites].
    split; [|lia]. intros _. split; [reflexivity|]. exists s.
    split; [exact Hs|apply simulation_step_eq].
  - rewrite (frame_without_spawn rand textures inp st) by (rewrite Hinc; lia).
    eexists. split; [reflexivity|]. cbn [spawnTimer rng sprites].
    split; [lia|]. intros _. rewrite Hinc.
    split; [reflexivity|]. split; [reflexivity|apply simulation_step_eq].
Qed.

End Timer.

Lemma staggered_weaken d l : 0 ≤ d →
  ∀ b b', b ≤ b' → staggered b d l → staggered b' d l.
Proof.
  intros Hd. induction l as [|s l IH]; intros b b' Hb; [done|].
  intros [Hs Hl]. split; [lia|]. apply (IH (b - d)); [lia|done].
Qed.

Lemma staggered_sublist d l' l : 0 ≤ d → l' `sublist_of` l →
  ∀ b, staggered b d l → staggered b d l'.
Proof.
  intros Hd. induction 1 as [|x l1 l2 Hsub IH|x l1 l2 Hsub IH]; intros b; [done|..].
  - intros [Hx Hl]. split; [done|]. by apply IH.
  - intros [Hx Hl]. apply (staggered_weaken d l1 Hd (b - d)); [lia|]. by apply IH.
Qed.

Lemma staggered_aged d l l' :
  Forall2 aged_once l l' → Forall (λ s, 0 < lifetime s ≤ INT_MAX) l →
  ∀ b, staggered b d l → staggered (b - 1) d l'.
Proof.
  induction 1 as [|s s' l l' Hs Hl IH]; intros Hrange b; [done|].
  inversion_clear Hrange as [|? ? Hr Hrl]. intros [Hb Hst]. split.
  - destruct Hs as [-> _]. unfold int_sub. rewrite wrap_int_id; [lia|].
    unfold int_range, INT_MIN, INT_MAX in *. lia.
  - replace (b - 1 - d) with (b - d - 1) by lia. by apply IH.
Qed.

Lemma staggered_upper d l : 0 ≤ d →
  ∀ b, staggered b d l → Forall (λ s, lifetime s ≤ b) l.
Proof.
  intros Hd. induction l as [|s l IH]; intros b; [constructor|].
  intros [Hs Hl]. constructor; [done|].
  eapply Forall_impl; [by apply (IH (b - d))|]. intros s' Hs'. simpl in Hs'. lia.
Qed.

Lemma staggered_length d l : 0 ≤ d → Forall alive l →
  ∀ b, staggered b d l → l ≠ [] → d * (Z.of_nat (length l) - 1) ≤ b - 1.
Proof.
  intros Hd. induction 1 as [|s l Hs Hl IH]; intros b; [done|].
  intros [Hb Hst] _. unfold alive in Hs. cbn [length]. rewrite Nat2Z.inj_succ.
  destruct l as [|s' l]; [cbn; lia|].
  specialize (IH (b - d) Hst ltac:(done)). lia.
Qed.

Lemma reverse_filter {A} (P : A → Prop) `{!∀ x, Decision (P x)} (l : list A) :
  reverse (filter P l) = filter P (reverse l).
Proof.
  induction l as [|x l IH]; [done|].
  rewrite reverse_cons, filter_app, <- IH.
  destruct (decide (P x)).
  - rewrite !filter_cons_True by done. by rewrite reverse_cons.
  - rewrite !filter_cons_False by done. by rewrite app_nil_r.
Qed.

(** One step on a collection whose lifetimes are staggered. *)
Lemma step_staggered dt d b v :
  0 ≤ d → b ≤ INT_MAX → Forall alive v → staggered b d (reverse v) →
  Forall alive (filter alive (pre_expiry dt v)) ∧
  staggered (b - 1) d (reverse (filter alive (pre_expiry dt v))).
Proof.
  intros Hd Hb Hv Hst. split.
  - apply Forall_forall. intros s Hs. by apply list_elem_of_filter in Hs as [? _].
  - rewrite reverse_filter.
    apply (staggered_sublist d _ (reverse (pre_expiry dt v)));
      [done|apply sublist_filter|].
    apply (staggered_aged d (reverse v)); [apply Forall2_reverse, pre_expiry_aged| |done].
    apply Forall_reverse.
    pose proof (proj1 (Forall_reverse _ _) (staggered_upper d _ Hd b Hst)) as Hup.
    rewrite Forall_forall in *. intros s Hs. specialize (Hv s Hs).
    specialize (Hup s Hs). unfold alive in Hv. simpl in Hup. lia.
Qed.

(** The vector between the loops of a step. *)
Lemma simulation_step_stages dt v :
  ∃ v1 v2, update_positions dt v = Some v1 ∧ handle_collisions v1 = Some v2 ∧
           expire v2 = Some (filter alive (pre_expiry dt v)) ∧
           length v1 = length v ∧ length v2 = length v.
Proof.
  exists (update_sprite dt <$> v),
    (foldl resolve_pair (update_sprite dt <$> v)
       (index_pairs (length (update_sprite dt <$> v)))).
  split; [apply update_positions_fmap|]. split; [apply handle_collisions_foldl|].
  split; [rewrite expire_filter, length_fmap; reflexivity|].
  split; [apply length_fmap|].
  rewrite length_foldl_resolve_pair. apply length_fmap.
Qed.

Section Population.
Context {RandState : Type} (rand : RandState → Z * RandState).
Hypothesis rand_range : ∀ g, 0 ≤ (rand g).1 ≤ INT_MAX.

Lemma spawnSprite_lifetime textures g s g' :
  spawnSprite rand textures g = Some (s, g') → 100 ≤ lifetime s < 400.
Proof.
  intros Hs. pose proof (spawnSprite_Some_nonempty rand _ _ _ Hs) as Htex.
  destruct (spawnSprite_bounds rand rand_range textures g Htex)
    as (s1 & g1 & Hs1 & _ & _ & _ & _ & _ & _ & Hlife & _).
  rewrite Hs in Hs1. by simplify_eq.
Qed.

Lemma spawnSprite_shape textures g s g' :
  spawnSprite rand textures g = Some (s, g') → spawner_shape s.
Proof.
  intros Hs. pose proof (spawnSprite_Some_nonempty rand _ _ _ Hs) as Htex.
  destruct (spawnSprite_bounds rand rand_range textures g Htex)
    as (s1 & g1 & Hs1 & Hw & Hh & _ & _ & Hx & Hy & _).
  rewrite Hs in Hs1. injection Hs1 as <- _.
  exact (conj Hw (conj Hh (conj Hx Hy))).
Qed.

Lemma frame_paced textures inp (st : Game) :
  textures ≠ [] → slider inp = None → paced st →
  ∃ st', frame rand textures inp st = Some st' ∧ paced st'.
Proof.
  intros Htex Hinp (Hv & Ht & Hst).
  assert (default (spawnTimer st) (slider inp) +i 1 = spawnTimer st + 1) as Hinc.
  { rewrite Hinp. cbn [default]. apply int_add_small.
    unfold int_range, INT_MIN, INT_MAX. lia. }
  destruct (decide (spawnTimer st = 30)) as [H30|H30].
  - destruct (spawnSprite_total rand textures (rng st) Htex) as [[s g'] Hs].
    rewrite (frame_with_spawn rand textures inp st s g') by (rewrite ?Hinc; done || lia).
    eexists. split; [done|]. unfold paced. cbn [sprites spawnTimer].
    pose proof (spawnSprite_lifetime _ _ _ _ Hs) as Hlife.
    destruct (step_staggered (frame_deltaTime inp st) 31 399 (sprites st ++ [s]))
      as [Ha Hb]; [lia|unfold INT_MAX; lia| | |].
    + apply Forall_app. split; [done|]. constructor; [unfold alive; lia|constructor].
    + rewrite reverse_snoc. split; [lia|]. rewrite H30 in Hst. exact Hst.
    + split; [done|]. split; [lia|]. exact Hb.
  - rewrite (frame_without_spawn rand textures inp st) by (rewrite Hinc; lia).
    eexists. split; [done|]. unfold paced. cbn [sprites spawnTimer].
    destruct (step_staggered (frame_deltaTime inp st) 31 (398 - spawnTimer st)
                (sprites st)) as [Ha Hb]; [lia|unfold INT_MAX; lia|done|done|].
    split; [done|]. rewrite Hinc. split; [lia|].
    replace (398 - (spawnTimer st + 1)) with (398 - spawnTimer st - 1) by lia.
    exact Hb.
Qed.

Lemma run_paced textures inputs :
  textures ≠ [] → no_slider inputs →
  ∀ st : Game, paced st →
    ∃ st', run rand textures inputs st = Some st' ∧ paced st'.
Proof.
  intros Htex Hns. induction Hns as [|inp inputs Hinp Hns IH]; intros st Hst.
  - by exists st.
  - cbn [run]. destruct (frame_paced textures inp st Htex Hinp Hst)
      as (st1 & -> & Hst1). cbn [mbind option_bind]. by apply IH.
Qed.

Lemma paced_length (st : Game (RandState := RandState)) :
  paced st → (length (sprites st) ≤ 13)%nat.
Proof.
  intros (Hv & Ht & Hst).
  destruct (decide (sprites st = [])) as [->|Hne]; [cbn; lia|].
  pose proof (staggered_length 31 (reverse (sprites st)) ltac:(lia)
                ltac:(by apply Forall_reverse) _ Hst) as Hlen.
  rewrite length_reverse in Hlen.
  assert (reverse (sprites st) ≠ []) as Hne'.
  { intros Hr. apply Hne. apply (f_equal length) in Hr.
    rewrite length_reverse in Hr. by destruct (sprites st). }
  specialize (Hlen Hne'). lia.
Qed.

Lemma frame_crowded textures inp (st : Game) :
  textures ≠ [] → crowded st →
  ∃ st', frame rand textures inp st = Some st' ∧ crowded st'.
Proof.
  intros Htex (Hv & Hst).
  destruct (decide (default (spawnTimer st) (slider inp) +i 1 > 30)) as [Ht|Ht].
  - destruct (spawnSprite_total rand textures (rng st) Htex) as [[s g'] Hs].
    rewrite (frame_with_spawn rand textures inp st s g') by done.
    eexists. split; [done|]. unfold crowded. cbn [sprites].
    pose proof (spawnSprite_lifetime _ _ _ _ Hs) as Hlife.
    destruct (step_staggered (frame_deltaTime inp st) 1 399 (sprites st ++ [s]))
      as [Ha Hb]; [lia|unfold INT_MAX; lia| | |done].
    + apply Forall_app. split; [done|]. constructor; [unfold alive; lia|constructor].
    + rewrite reverse_snoc. split; [lia|]. exact Hst.
  - rewrite (frame_without_spawn rand textures inp st) by lia.
    eexists. split; [done|]. unfold crowded. cbn [sprites].
    destruct (step_staggered (frame_deltaTime inp st) 1 398 (sprites st))
      as [Ha Hb]; [lia|unfold INT_MAX; lia|done|done|].
    split; [done|]. by apply (staggered_weaken 1 _ ltac:(lia) (398 - 1) 398 ltac:(lia)).
Qed.

Lemma run_crowded textures inputs :
  textures ≠ [] →
  ∀ st : Game, crowded st →
    ∃ st', run rand textures inputs st = Some st' ∧ crowded st'.
Proof.
  intros Htex. induction inputs as [|inp inputs IH]; intros st Hst.
  - by exists st.
  - cbn [run]. destruct (frame_crowded textures inp st Htex Hst)
      as (st1 & -> & Hst1). cbn [mbind option_bind]. by apply IH.
Qed.

Lemma crowded_length (st : Game (RandState := RandState)) :
  crowded st → (length (sprites st) ≤ 398)%nat.
Proof.
  intros (Hv & Hst).
  destruct (decide (sprites st = [])) as [->|Hne]; [cbn; lia|].
  pose proof (staggered_length 1 (reverse (sprites st)) ltac:(lia)
                ltac:(by apply Forall_reverse) _ Hst) as Hlen.
  rewrite length_reverse in Hlen.
  assert (reverse (sprites st) ≠ []) as Hne'.
  { intros Hr. apply Hne. apply (f_equal length) in Hr.
    rewrite length_reverse in Hr. by destruct (sprites st). }
  specialize (Hlen Hne'). lia.
Qed.

Lemma crowded_lifetimes (st : Game (RandState := RandState)) :
  crowded st → Forall (λ s, 0 < lifetime s ≤ 398) (sprites st).
Proof.
  intros [Halive Hst].
  pose proof (proj1 (Forall_reverse _ _)
                (staggered_upper 1 _ ltac:(lia) 398 Hst)) as Hup.
  rewrite Forall_forall in *. intros s Hs.
  specialize (Halive s Hs). specialize (Hup s Hs).
  unfold alive in Halive. cbv beta in Hup. lia.
Qed.

End Population.

(** ** Startup *)

Lemma find_missing_spec (textures : list SDL_Texture) : ∀ fuel i,
  (length textures - i < fuel)%nat →
  (Forall (λ t, t ≠ 0%N) (drop i textures) ∧
   find_missing fuel i textures = Some None) ∨
  (∃ k, (i ≤ k)%nat ∧ textures !! k = Some 0%N ∧
        (∀ j, (i ≤ j < k)%nat → textures !! j ≠ Some 0%N) ∧
        find_missing fuel i textures = Some (Some k)).
Proof.
  induction fuel as [|fuel IH]; intros i Hfuel; [lia|].
  change (find_missing (S fuel) i textures) with
    (if bool_decide (i < length textures)%nat
     then t ← textures !! i;
          if bool_decide (t = 0%N) then Some (Some i)
          else find_missing fuel (S i) textures
     else Some None).
  case_bool_decide as Hi.
  - destruct (textures !! i) as [t|] eqn:Ht;
      [|apply lookup_ge_None in Ht; unfold SDL_Texture in *; lia].
    cbn [mbind option_bind]. case_bool_decide as H0.
    + right. exists i. subst t. repeat split; [lia|done|lia].
    + destruct (IH (S i)) as [[Hall Hf]|(k & Hk & Hnull & Hbefore & Hf)]; [lia|..].
      * left. split; [|done]. rewrite (drop_S _ t) by done. by constructor.
      * right. exists k. split; [lia|]. split; [done|]. split; [|done].
        intros j Hj. destruct (decide (j = i)) as [->|]; [|apply Hbefore; lia].
        congruence.
  - left. split; [|done]. rewrite drop_ge by lia. constructor.
Qed.

Section LoadingFacts.
Context {Surface : Type}.
Variable IMG_Load : string → option Surface.
Variable SDL_CreateTextureFromSurface : Surface → SDL_Texture.

Lemma startup_cases :
  (Forall (λ t, t ≠ 0%N) (load_textures IMG_Load SDL_CreateTextureFromSurface) ∧
   startup IMG_Load SDL_CreateTextureFromSurface
   = Some (Started (load_textures IMG_Load SDL_CreateTextureFromSurface))) ∨
  (∃ k, load_textures IMG_Load SDL_CreateTextureFromSurface !! k = Some 0%N ∧
        (∀ j, (j < k)%nat →
           load_textures IMG_Load SDL_CreateTextureFromSurface !! j ≠ Some 0%N) ∧
        startup IMG_Load SDL_CreateTextureFromSurface
        = Some (StartupFailed 1 (k + 1))).
Proof.
  unfold startup, check_textures.
  destruct (find_missing_spec (load_textures IMG_Load SDL_CreateTextureFromSurface)
              (S (length (load_textures IMG_Load SDL_CreateTextureFromSurface)))
              0) as [[Hall ->]|(k & _ & Hnull & Hbefore & ->)]; [lia|..].
  - left. by rewrite drop_0 in Hall.
  - right. exists k. split; [done|]. split; [|done]. intros j Hj. apply Hbefore. lia.
Qed.

End LoadingFacts.

(** ** Textures of the sprites *)
Section Textures.
Context {RandState : Type} (rand : RandState → Z * RandState).

Lemma spawnSprite_texture textures g s g' :
  spawnSprite rand textures g = Some (s, g') → texture s ∈ textures.
Proof.
  unfold spawnSprite. intros Hs.
  repeat match type of Hs with
  | context [rand ?g] => destruct (rand g) as [? ?]
  end. simpl in Hs.
  destruct (size_rem _ _) as [idx|]; [|done]. simpl in Hs.
  destruct (textures !! idx) as [t|] eqn:Ht; [|done]. simpl in Hs.
  injection Hs as <- _. simpl. by eapply list_elem_of_lookup_2.
Qed.

Lemma run_textures textures inputs :
  textures ≠ [] →
  ∀ st : Game, Forall (λ s, texture s ∈ textures) (sprites st) →
    ∃ st', run rand textures inputs st = Some st' ∧
           Forall (λ s, texture s ∈ textures) (sprites st').
Proof.
  intros Htex. induction inputs as [|inp inputs IH]; intros st Hst.
  - by exists st.
  - cbn [run].
    destruct (frame_eq rand textures inp st Htex) as (new & st1 & -> & Hst1 & Hnew).
    cbn [mbind option_bind]. apply IH. rewrite Hst1.
    apply Forall_forall. intros s Hs. apply list_elem_of_filter in Hs as [_ Hs].
    revert s Hs. apply Forall_forall.
    eapply Forall2_Forall_r; [apply pre_expiry_aged|].
    apply Forall_app. split.
    + eapply Forall_impl; [done|]. intros s Hs s' (_ & Ht & _). cbv beta in Hs.
      by rewrite Ht.
    + eapply Forall_impl; [done|]. intros s (g & g' & Hs) s' (_ & Ht & _).
      rewrite Ht. by eapply spawnSprite_texture.
Qed.

End Textures.

(** ** Displacements *)

Lemma to_int_range f : int_range (Float32.to_int f).
Proof.
  unfold Float32.to_int, int_range.
  destruct (Float32.truncate f) as [z|]; [|by vm_compute].
  case_decide; [done|by vm_compute].
Qed.

Lemma displacement_close_upto_5_1000 : displacement_close_upto 5 1000 = true.
Proof. vm_compute. reflexivity. Qed.

Lemma displacement_close_spec vmax msmax v ms :
  displacement_close_upto vmax msmax = true →
  - vmax ≤ v ≤ vmax → 0 ≤ ms ≤ msmax →
  displacement_close v ms = true.
Proof.
  unfold displacement_close_upto. rewrite forallb_forall. intros Hall Hv Hms.
  specialize (Hall v). rewrite forallb_forall in Hall.
  apply Hall.
  - apply list_elem_of_In, elem_of_seqZ. lia.
  - apply list_elem_of_In, elem_of_seqZ. lia.
Qed.

Lemma exact_displacement_small v ms :
  0 ≤ ms → Z.abs v * ms * 60 < 1000 → exact_displacement v ms = 0.
Proof.
  intros Hms Hsmall. unfold exact_displacement.
  destruct (Z_le_gt_dec 0 v) as [Hv|Hv].
  - apply Z.quot_small. nia.
  - replace (v * ms * 60) with (- (- v * ms * 60)) by lia.
    rewrite Z.quot_opp_l by lia. rewrite Z.quot_small; [done|nia].
Qed.

Lemma displacement_zero v ms :
  -5 ≤ v ≤ 5 → 0 ≤ ms ≤ 1000 → Z.abs v * ms * 60 < 1000 →
  displacement v (dt_of_ms ms) = 0.
Proof.
  intros Hv Hms Hsmall.
  pose proof (displacement_close_spec 5 1000 v ms
                displacement_close_upto_5_1000 Hv Hms) as Hclose.
  unfold displacement_close in Hclose. cbv zeta in Hclose.
  rewrite exact_displacement_small in Hclose by lia.
  apply orb_true_iff in Hclose as [H|H]; apply bool_decide_eq_true in H;
    exact H.
Qed.

Lemma uint32_sub_elapsed last e :
  0 ≤ e < UINT32_MOD →
  uint32_sub ((last + e) `mod` UINT32_MOD) last = e.
Proof.
  intros He. unfold uint32_sub. rewrite Zminus_mod_idemp_l.
  replace (last + e - last) with e by lia. by apply Z.mod_small.
Qed.

(** ** Speed magnitudes *)

Lemma int_neg_exact v : INT_MIN < v ≤ INT_MAX → int_neg v = - v.
Proof.
  intros Hv. apply wrap_int_id. unfold int_range, INT_MIN, INT_MAX in *. lia.
Qed.

Lemma steady_refl s : steady s s.
Proof. by intros Hs. Qed.

Lemma steady_trans s1 s2 s3 : steady s1 s2 → steady s2 s3 → steady s1 s3.
Proof.
  intros H12 H23 H1. destruct (H12 H1) as [[Hx Hy] H2].
  destruct (H23 H2) as [[Hx' Hy'] H3]. split; [|done].
  split; congruence.
Qed.

Lemma steady_negated s s' :
  (speedX s' = speedX s ∨ speedX s' = int_neg (speedX s)) →
  (speedY s' = speedY s ∨ speedY s' = int_neg (speedY s)) →
  steady s s'.
Proof.
  intros Hx Hy Hs. destruct Hs as [Hsx Hsy].
  assert (int_neg (speedX s) = - speedX s) as Hnx
    by (apply int_neg_exact; exact Hsx).
  assert (int_neg (speedY s) = - speedY s) as Hny
    by (apply int_neg_exact; exact Hsy).
  rewrite Hnx in Hx. rewrite Hny in Hy.
  unfold same_speed_magnitude, speeds_negatable, INT_MIN, INT_MAX in *.
  lia.
Qed.

Lemma resolve_pair_steady v p : Forall2 steady v (resolve_pair v p).
Proof.
  eapply Forall2_impl; [apply resolve_pair_speeds|].
  intros s s' [Hx Hy]. exact (steady_negated s s' Hx Hy).
Qed.

Lemma pre_expiry_steady dt v : Forall2 steady v (pre_expiry dt v).
Proof.
  unfold pre_expiry.
  assert (Forall2 steady v (update_sprite dt <$> v)) as Hu.
  { apply Forall2_fmap_r, Forall_Forall2_diag, Forall_forall. intros s _.
    apply steady_negated; [apply update_sprite_speedX|apply update_sprite_speedY]. }
  revert Hu. generalize (update_sprite dt <$> v).
  induction (index_pairs (length v)) as [|p ps IH]; intros w Hw; [done|].
  cbn [foldl]. apply IH.
  eapply Forall2_trans; [apply steady_trans|exact Hw|apply resolve_pair_steady].
Qed.

Lemma pre_expiry_spawner_shape dt v :
  Forall spawner_shape v → Forall spawner_shape (pre_expiry dt v).
Proof.
  intros Hv. apply Forall_lookup_2. intros i s' Hs'.
  destruct (Forall2_lookup_r _ _ _ _ _ (pre_expiry_steady dt v) Hs')
    as (s & Hs & Hst).
  destruct (Forall2_lookup_r _ _ _ _ _ (pre_expiry_aged dt v) Hs')
    as (s0 & Hs0 & Hag).
  rewrite Hs in Hs0. injection Hs0 as <-.
  pose proof (Forall_lookup_1 _ _ _ _ Hv Hs) as (Hw & Hh & Hx & Hy).
  destruct Hst as [[Hx' Hy'] _];
    [unfold speeds_negatable, INT_MIN, INT_MAX; lia|].
  destruct Hag as (_ & _ & Hw' & Hh').
  unfold spawner_shape. rewrite Hw', Hh', Hx', Hy'.
  exact (conj Hw (conj Hh (conj Hx Hy))).
Qed.

(** A property of sprites that spawning establishes and the update and
    collision loops keep holds throughout a run. *)
Lemma run_invariant {RandState : Type} (rand : RandState → Z * RandState)
    (P : Sprite → Prop) textures inputs :
  (∀ dt v, Forall P v → Forall P (pre_expiry dt v)) →
  (∀ g s g', spawnSprite rand textures g = Some (s, g') → P s) →
  textures ≠ [] →
  ∀ st : Game, Forall P (sprites st) →
    ∃ st', run rand textures inputs st = Some st' ∧ Forall P (sprites st').
Proof.
  intros Hstep Hspawn Htex. induction inputs as [|inp inputs IH]; intros st Hst.
  - by exists st.
  - cbn [run].
    destruct (frame_eq rand textures inp st Htex) as (new & st1 & -> & Hst1 & Hnew).
    cbn [mbind option_bind]. apply IH. rewrite Hst1.
    apply Forall_forall. intros s Hs. apply list_elem_of_filter in Hs as [_ Hs].
    revert s Hs. apply Forall_forall, Hstep, Forall_app. split; [done|].
    eapply Forall_impl; [done|]. intros s (g & g' & Hs). by eapply Hspawn.
Qed.

(** ** The initial state and the example frames *)

Lemma no_slider_frames_of_17ms n : no_slider (frames_of_17ms n).
Proof.
  unfold no_slider, frames_of_17ms. apply Forall_fmap, Forall_forall.
  intros k _. reflexivity.
Qed.

Lemma initial_game_paced {RandState : Type} ticks (g : RandState) :
  paced (initial_game ticks g).
Proof.
  unfold paced. cbn [initial_game sprites spawnTimer].
  split; [constructor|]. split; [lia|exact I].
Qed.

Lemma initial_game_crowded {RandState : Type} ticks (g : RandState) :
  crowded (initial_game ticks g).
Proof.
  unfold crowded. cbn [initial_game sprites].
  split; [constructor|exact I].
Qed.

(** ** One sprite through a step with collisions and expiry of others *)










(** * The stated properties *)

(** C1: one simulation step decreases the remaining lifetime of every
    sprite of the active collection by exactly 1, once. First part: in a
    step, the vector [v2] that the update and collision loops hand to the
    expiration passes holds, index by index, the sprites of [v] with the
    lifetime decremented once ([aged_once]) and the same texture and size.
    Second part: after [k ≥ 1] iterations of the main loop (with spawning,
    any tick counts and slider moves), the vector the last expiration pass
    started from begins with the initial sprites whose lifetime was at
    least [k], in their order, each with its lifetime less exactly [k];
    those that reached 0 are then erased. *)
Theorem lifetime_decreases_by_one_per_step :
  (∀ dt v, ∃ v1 v2,
     update_positions dt v = Some v1 ∧ handle_collisions v1 = Some v2 ∧
     simulation_step dt v = Some (filter alive v2) ∧
     Forall2 aged_once v v2) ∧
  (∀ (RandState : Type) (rand : RandState → Z * RandState)
     textures inputs (st : Game),
     textures ≠ [] → inputs ≠ [] →
     Forall (λ s, 0 < lifetime s ≤ INT_MAX) (sprites st) →
     ∃ st' tracked others,
       run rand textures inputs st = Some st' ∧
       sprites st' = filter alive (tracked ++ others) ∧
       Forall2 (aged (Z.of_nat (length inputs)))
         (filter (λ s, Z.of_nat (length inputs) ≤ lifetime s) (sprites st))
         tracked).
Proof.
  split.
  - intros dt v. exists (update_sprite dt <$> v), (pre_expiry dt v).
    split; [apply update_positions_fmap|].
    split; [|split; [apply simulation_step_eq|apply pre_expiry_aged]].
    rewrite handle_collisions_foldl. unfold pre_expiry. by rewrite length_fmap.
  - intros. by apply run_tracks.
Qed.

Lemma lifetime_decreases_by_one_per_step_witness :
  (three_textures ≠ [] ∧ [mkInput None 17; mkInput None 34] ≠ [] ∧
   Forall (λ s, 0 < lifetime s ≤ INT_MAX) (sprites tracked_example)) ∧
  ∃ st' tracked others,
    run msvc_rand three_textures [mkInput None 17; mkInput None 34]
        tracked_example = Some st' ∧
    sprites st' = filter alive (tracked ++ others) ∧
    Forall2 (aged 2) (filter (λ s, 2 ≤ lifetime s) (sprites tracked_example))
      tracked.
Proof.
  assert ([mkInput None 17; mkInput None 34] ≠ []) as H2 by discriminate.
  assert (Forall (λ s, 0 < lifetime s ≤ INT_MAX) (sprites tracked_example))
    as H3 by (repeat constructor; by vm_compute).
  split; [split; [exact three_textures_nonempty|by split]|].
  exact (proj2 lifetime_decreases_by_one_per_step Z msvc_rand
           three_textures [mkInput None 17; mkInput None 34]
           tracked_example three_textures_nonempty H2 H3).
Defined.

(** C2: the expiration phase of a step (both passes) returns exactly the
    sprites of the vector it is given whose lifetime is positive, in their
    order and with their multiplicities: no sprite with lifetime ≤ 0
    remains, none is skipped and none duplicated. *)
Theorem expiration_keeps_exactly_the_alive :
  (∀ v, expire v = Some (filter alive v)) ∧
  (∀ (v : list Sprite) s, s ∈ filter alive v ↔ s ∈ v ∧ 0 < lifetime s) ∧
  (∀ v : list Sprite, Forall (λ s, ¬ lifetime s ≤ 0) (filter alive v)) ∧
  (∀ v : list Sprite, filter alive v `sublist_of` v) ∧
  (∀ dt v, ∃ v1 v2, update_positions dt v = Some v1 ∧
                    handle_collisions v1 = Some v2 ∧
                    simulation_step dt v = Some (filter alive v2)).
Proof.
  split; [apply expire_filter|]. split; [|split; [|split]].
  - intros v s. rewrite list_elem_of_filter. unfold alive. tauto.
  - intros v. apply Forall_forall. intros s Hs.
    apply list_elem_of_filter in Hs as [Hs _]. unfold alive in Hs. lia.
  - intros v. apply sublist_filter.
  - intros dt v. eexists _, _. split; [apply update_positions_fmap|].
    split; [apply handle_collisions_foldl|].
    rewrite simulation_step_eq. unfold pre_expiry. by rewrite length_fmap.
Qed.

(** C3: the collision loops visit every pair [i < j] of indices exactly
    once, in row order; at a pair whose rectangles collide when it is
    visited, both speeds of both sprites are negated and each axis gets one
    unit of separation: the sprite with the strictly smaller coordinate
    moves by -1 and the other by +1, and on equal coordinates the first
    sprite moves by +1 and the second by -1. A pair that does not collide
    leaves the vector as it is. *)
Theorem collision_response_per_pair :
  (∀ i j v a b, i ≠ j → v !! i = Some a → v !! j = Some b →
     resolve_collision i j v
     = Some (if checkCollision (rect a) (rect b)
             then <[j := (collision_response a b).2]>
                    (<[i := (collision_response a b).1]> v)
             else v)) ∧
  (∀ a b a' b', collision_response a b = (a', b') →
     speedX a' = int_neg (speedX a) ∧ speedY a' = int_neg (speedY a) ∧
     speedX b' = int_neg (speedX b) ∧ speedY b' = int_neg (speedY b) ∧
     (Rect.x (rect a) < Rect.x (rect b) →
        Rect.x (rect a') = Rect.x (rect a) -i 1 ∧
        Rect.x (rect b') = Rect.x (rect b) +i 1) ∧
     (Rect.x (rect b) ≤ Rect.x (rect a) →
        Rect.x (rect a') = Rect.x (rect a) +i 1 ∧
        Rect.x (rect b') = Rect.x (rect b) -i 1) ∧
     (Rect.y (rect a) < Rect.y (rect b) →
        Rect.y (rect a') = Rect.y (rect a) -i 1 ∧
        Rect.y (rect b') = Rect.y (rect b) +i 1) ∧
     (Rect.y (rect b) ≤ Rect.y (rect a) →
        Rect.y (rect a') = Rect.y (rect a) +i 1 ∧
        Rect.y (rect b') = Rect.y (rect b) -i 1) ∧
     kept a a' ∧ kept b b') ∧
  (∀ v, handle_collisions v
        = Some (foldl resolve_pair v (index_pairs (length v)))) ∧
  (∀ n, NoDup (index_pairs n) ∧
        ∀ i j, (i, j) ∈ index_pairs n ↔ (i < j < n)%nat) ∧
  handle_collisions [overlapping_a; overlapping_b]
  = Some [mkSprite (Rect.mk 101 101 50 50) (-2) 0 9 1%N;
          mkSprite (Rect.mk 99 99 50 50) 2 0 9 2%N].
Proof.
  split; [|split; [|split; [|split]]].
  - intros i j v a b Hne Ha Hb.
    rewrite resolve_collision_pair; eauto using lookup_lt_Some.
    unfold resolve_pair. cbn [fst snd]. by rewrite Ha, Hb.
  - intros a b a' b' [= <- <-]. cbn [speedX speedY rect Rect.x Rect.y].
    repeat split; intros; rewrite ?bool_decide_eq_true_2 by done;
      rewrite ?bool_decide_eq_false_2 by lia; done.
  - apply handle_collisions_foldl.
  - intros n. split; [apply NoDup_index_pairs|apply elem_of_index_pairs].
  - vm_compute. reflexivity.
Qed.

Lemma collision_response_per_pair_witness :
  (0%nat ≠ 1%nat ∧
   [overlapping_a; overlapping_b] !! 0%nat = Some overlapping_a ∧
   [overlapping_a; overlapping_b] !! 1%nat = Some overlapping_b) ∧
  resolve_collision 0 1 [overlapping_a; overlapping_b]
  = Some (if checkCollision (rect overlapping_a) (rect overlapping_b)
          then <[1%nat := (collision_response overlapping_a overlapping_b).2]>
                 (<[0%nat := (collision_response overlapping_a overlapping_b).1]>
                    [overlapping_a; overlapping_b])
          else [overlapping_a; overlapping_b]).
Proof.
  assert (0%nat ≠ 1%nat) as H1 by lia.
  assert ([overlapping_a; overlapping_b] !! 0%nat = Some overlapping_a)
    as H2 by reflexivity.
  assert ([overlapping_a; overlapping_b] !! 1%nat = Some overlapping_b)
    as H3 by reflexivity.
  split; [by repeat split|].
  exact (proj1 collision_response_per_pair 0%nat 1%nat
           [overlapping_a; overlapping_b] overlapping_a overlapping_b H1 H2 H3).
Defined.

(** C4: the update loop applies [update_sprite] to every sprite; it
    integrates the position, then tests each axis on its own against the
    screen bounds ([x ≤ 0] or [x + w ≥ 800]; [y ≤ 0] or [y + h ≥ 600]) with
    the integrated coordinates and negates that speed when the test holds;
    the position stays as integrated (no clamping) and both axes can flip
    in one step. The sprite at x = 795 of width 50 with speed (3, 0) and
    lifetime 5, stepped with [deltaTime] 1/60, ends with speedX -3 and
    lifetime 4. *)
Theorem bounce_after_integration :
  (∀ dt v, update_positions dt v = Some (update_sprite dt <$> v)) ∧
  (∀ dt s,
     let x' := Rect.x (rect s) +i displacement (speedX s) dt in
     let y' := Rect.y (rect s) +i displacement (speedY s) dt in
     rect (update_sprite dt s)
       = Rect.mk x' y' (Rect.w (rect s)) (Rect.h (rect s)) ∧
     speedX (update_sprite dt s)
       = (if bool_decide (x' ≤ 0) ||
             bool_decide (x' +i Rect.w (rect s) >= SCREEN_WIDTH)
          then int_neg (speedX s) else speedX s) ∧
     speedY (update_sprite dt s)
       = (if bool_decide (y' ≤ 0) ||
             bool_decide (y' +i Rect.h (rect s) >= SCREEN_HEIGHT)
          then int_neg (speedY s) else speedY s) ∧
     lifetime (update_sprite dt s) = lifetime s -i 1 ∧
     texture (update_sprite dt s) = texture s) ∧
  (∀ y h t,
     ∃ s', simulation_step one_sixtieth [mkSprite (Rect.mk 795 y 50 h) 3 0 5 t]
           = Some [s'] ∧
           speedX s' = -3 ∧ lifetime s' = 4 ∧ Rect.x (rect s') = 798) ∧
  update_sprite one_sixtieth (mkSprite (Rect.mk 795 597 50 50) 3 3 5 1%N)
    = mkSprite (Rect.mk 798 600 50 50) (-3) (-3) 4 1%N.
Proof.
  split; [apply update_positions_fmap|].
  split; [apply update_sprite_fields|].
  split; [|by vm_compute].
  intros y h t. eexists. rewrite simulation_step_single.
  rewrite filter_cons_True.
  - split; [reflexivity|].
    rewrite update_sprite_speedX_hit, update_sprite_x.
    destruct (update_sprite_fields one_sixtieth
                (mkSprite (Rect.mk 795 y 50 h) 3 0 5 t)) as (_ & _ & _ & -> & _).
    cbn [rect speedX lifetime Rect.x Rect.w set_x hits_x_bound].
    rewrite displacement_3_one_sixtieth. done.
  - unfold alive.
    destruct (update_sprite_fields one_sixtieth
                (mkSprite (Rect.mk 795 y 50 h) 3 0 5 t)) as (_ & _ & _ & -> & _).
    done.
Qed.


(** Nor does it hold for a sprite that collides in the next step: here
    the sprite at index 1 bounces in a step of 17 ms; the next step, of
    33 ms, moves it clear of the bound, so the bounce test leaves its
    speed at -1, but the sprite behind it has caught up and the collision
    response negates the speed to +1. *)
Lemma collision_can_flip_back :
  ∃ v1 v2 s1 s2,
    chased !! 1%nat = Some near_right_edge ∧
    collides_with_none (dt_of_ms 17) 1 chased = true ∧
    simulation_step (dt_of_ms 17) chased = Some v1 ∧ v1 !! 1%nat = Some s1 ∧
    speedX s1 = - speedX near_right_edge ∧
    hits_x_bound (update_sprite (dt_of_ms 33) s1) = false ∧
    collides_with_none (dt_of_ms 33) 1 v1 = false ∧
    simulation_step (dt_of_ms 33) v1 = Some v2 ∧ v2 !! 1%nat = Some s2 ∧
    0 < speedX s2.
Proof.
  exists [mkSprite (Rect.mk 700 300 50 50) 5 0 99 2%N;
          mkSprite (Rect.mk 750 300 50 50) (-1) 0 99 1%N],
         [mkSprite (Rect.mk 708 301 50 50) (-5) 0 98 2%N;
          mkSprite (Rect.mk 750 299 50 50) 1 0 98 1%N],
         (mkSprite (Rect.mk 750 300 50 50) (-1) 0 99 1%N),
         (mkSprite (Rect.mk 750 299 50 50) 1 0 98 1%N).
  split; [reflexivity|]. split; [vm_compute; reflexivity|].
  split; [vm_compute; reflexivity|]. split; [reflexivity|].
  split; [reflexivity|]. split; [vm_compute; reflexivity|].
  split; [vm_compute; reflexivity|]. split; [vm_compute; reflexivity|].
  split; [reflexivity|]. reflexivity.
Qed.



(** C6: with a non-empty texture registry (and a [rand()] that returns
    values in [0 .. INT_MAX]), the spawner returns a sprite of size 50×50
    that lies within the 800×600 screen, with speeds of magnitude 1 to 5 on
    each axis, both nonzero, a lifetime in 100..400 and a texture of the
    registry. The two signs are drawn separately: every combination of
    signs is produced from some state of the generator. *)
Theorem spawnSprite_within_bounds :
  (∀ (RandState : Type) (rand : RandState → Z * RandState) textures g,
     (∀ g, 0 ≤ (rand g).1 ≤ INT_MAX) → textures ≠ [] →
     ∃ s g', spawnSprite rand textures g = Some (s, g') ∧
       Rect.w (rect s) = 50 ∧ Rect.h (rect s) = 50 ∧
       0 ≤ Rect.x (rect s) ∧ 0 ≤ Rect.y (rect s) ∧
       Rect.x (rect s) + 50 ≤ SCREEN_WIDTH ∧
       Rect.y (rect s) + 50 ≤ SCREEN_HEIGHT ∧
       1 ≤ Z.abs (speedX s) ≤ 5 ∧ 1 ≤ Z.abs (speedY s) ≤ 5 ∧
       speedX s ≠ 0 ∧ speedY s ≠ 0 ∧
       100 ≤ lifetime s ≤ 400 ∧ texture s ∈ textures) ∧
  (∀ bx by_ : bool, ∃ seed s g',
     spawnSprite msvc_rand three_textures seed = Some (s, g') ∧
     (0 < speedX s ↔ bx = true) ∧ (0 < speedY s ↔ by_ = true)).
Proof.
  split.
  - intros RandState rand textures g Hrand Htex.
    destruct (spawnSprite_bounds rand Hrand textures g Htex)
      as (s & g' & Hs & Hw & Hh & Hx & Hy & Hvx & Hvy & Hlife & Htx).
    exists s, g'. unfold SCREEN_WIDTH, SCREEN_HEIGHT in *.
    repeat split; try done; lia.
  - intros [|] [|].
    + exists 0. eexists _, _. split; [vm_compute; reflexivity|]. by vm_compute.
    + exists 2. eexists _, _. split; [vm_compute; reflexivity|]. by vm_compute.
    + exists 9. eexists _, _. split; [vm_compute; reflexivity|]. by vm_compute.
    + exists 1. eexists _, _. split; [vm_compute; reflexivity|]. by vm_compute.
Qed.

Lemma spawnSprite_within_bounds_witness :
  ((∀ g, 0 ≤ (msvc_rand g).1 ≤ INT_MAX) ∧ three_textures ≠ []) ∧
  ∃ s g', spawnSprite msvc_rand three_textures 1 = Some (s, g') ∧
    Rect.w (rect s) = 50 ∧ Rect.h (rect s) = 50 ∧
    0 ≤ Rect.x (rect s) ∧ 0 ≤ Rect.y (rect s) ∧
    Rect.x (rect s) + 50 ≤ SCREEN_WIDTH ∧
    Rect.y (rect s) + 50 ≤ SCREEN_HEIGHT ∧
    1 ≤ Z.abs (speedX s) ≤ 5 ∧ 1 ≤ Z.abs (speedY s) ≤ 5 ∧
    speedX s ≠ 0 ∧ speedY s ≠ 0 ∧
    100 ≤ lifetime s ≤ 400 ∧ texture s ∈ three_textures.
Proof.
  split; [exact (conj msvc_rand_range three_textures_nonempty)|].
  exact (proj1 spawnSprite_within_bounds Z msvc_rand three_textures 1
           msvc_rand_range three_textures_nonempty).
Defined.

(** C7: [checkCollision a b] is true exactly when
    [a.x < b.x + b.w && a.x + a.w > b.x && a.y < b.y + b.h && a.y + a.h > b.y],
    with the sums as [int] sums and, when the four edge sums do not
    overflow, as sums of integers; rectangles of which one edge coordinate
    equals the facing edge of the other do not collide; {0,0,10,10} does
    not collide with {10,0,10,10} and does with {9,0,10,10}. *)
Theorem checkCollision_open_overlap :
  (∀ a b, checkCollision a b = true ↔
     Rect.x a < Rect.x b +i Rect.w b ∧ Rect.x a +i Rect.w a > Rect.x b ∧
     Rect.y a < Rect.y b +i Rect.h b ∧ Rect.y a +i Rect.h a > Rect.y b) ∧
  (∀ a b, edges_representable a → edges_representable b →
     (checkCollision a b = true ↔
        Rect.x a < Rect.x b + Rect.w b ∧ Rect.x a + Rect.w a > Rect.x b ∧
        Rect.y a < Rect.y b + Rect.h b ∧ Rect.y a + Rect.h a > Rect.y b)) ∧
  (∀ a b, Rect.x a +i Rect.w a = Rect.x b ∨ Rect.x b +i Rect.w b = Rect.x a ∨
          Rect.y a +i Rect.h a = Rect.y b ∨ Rect.y b +i Rect.h b = Rect.y a →
          checkCollision a b = false) ∧
  checkCollision (Rect.mk 0 0 10 10) (Rect.mk 10 0 10 10) = false ∧
  checkCollision (Rect.mk 0 0 10 10) (Rect.mk 9 0 10 10) = true.
Proof.
  split; [apply checkCollision_true|]. split; [|split; [|done]].
  - intros a b [Hax Hay] [Hbx Hby]. rewrite checkCollision_true.
    unfold int_add. by rewrite !wrap_int_id.
  - intros a b H. apply not_true_is_false. rewrite checkCollision_true. lia.
Qed.

Lemma checkCollision_open_overlap_witness :
  (edges_representable (Rect.mk 0 0 10 10) ∧
   edges_representable (Rect.mk 9 0 10 10)) ∧
  (checkCollision (Rect.mk 0 0 10 10) (Rect.mk 9 0 10 10) = true ↔
     0 < 9 + 10 ∧ 0 + 10 > 9 ∧ 0 < 0 + 10 ∧ 0 + 10 > 0).
Proof.
  assert (edges_representable (Rect.mk 0 0 10 10)) as Ha.
  { split; simpl; unfold int_range, INT_MIN, INT_MAX; lia. }
  assert (edges_representable (Rect.mk 9 0 10 10)) as Hb.
  { split; simpl; unfold int_range, INT_MIN, INT_MAX; lia. }
  split; [exact (conj Ha Hb)|].
  exact (proj1 (proj2 checkCollision_open_overlap) _ _ Ha Hb).
Defined.

(** C8: a sprite whose two speeds are nonzero keeps them nonzero through
    every step: the update keeps or negates each speed, the collision
    response keeps or negates each speed, negation of a nonzero [int] is
    nonzero, so a step maps a collection of sprites with nonzero speeds to
    one, and so does any number of iterations of the main loop, in which
    every spawned sprite has nonzero speeds too. *)
Theorem speeds_never_become_zero :
  (∀ dt s, speeds_kept_or_negated s (update_sprite dt s)) ∧
  (∀ i j v, (i < length v)%nat → (j < length v)%nat → i ≠ j →
     ∃ v', resolve_collision i j v = Some v' ∧
           Forall2 speeds_kept_or_negated v v') ∧
  (∀ v, int_range v → v ≠ 0 → int_neg v ≠ 0) ∧
  (∀ dt v, Forall moving v →
     ∃ v', simulation_step dt v = Some v' ∧ Forall moving v') ∧
  (∀ (RandState : Type) (rand : RandState → Z * RandState)
     textures inputs (st : Game),
     (∀ g, 0 ≤ (rand g).1 ≤ INT_MAX) → textures ≠ [] →
     Forall moving (sprites st) →
     ∃ st', run rand textures inputs st = Some st' ∧
            Forall moving (sprites st')).
Proof.
  split; [|split; [|split; [|split]]].
  - intros dt s. split;
      [apply update_sprite_speedX|apply update_sprite_speedY].
  - intros i j v Hi Hj Hne. eexists.
    split; [by apply resolve_collision_pair|apply resolve_pair_speeds].
  - apply int_neg_nonzero.
  - apply simulation_step_moving.
  - intros RandState rand textures inputs st Hrand Htex Hst.
    by apply run_moving.
Qed.

Lemma speeds_never_become_zero_witness :
  ((∀ g, 0 ≤ (msvc_rand g).1 ≤ INT_MAX) ∧ three_textures ≠ [] ∧
   Forall moving (sprites tracked_example)) ∧
  ∃ st', run msvc_rand three_textures (replicate 40 (mkInput None 17))
             tracked_example = Some st' ∧
         Forall moving (sprites st').
Proof.
  assert (Forall moving (sprites tracked_example)) as H2.
  { repeat constructor; by vm_compute. }
  split; [split; [exact msvc_rand_range|exact (conj three_textures_nonempty H2)]|].
  exact (proj2 (proj2 (proj2 (proj2 speeds_never_become_zero))) Z msvc_rand
           three_textures (replicate 40 (mkInput None 17))
           tracked_example msvc_rand_range three_textures_nonempty H2).
Defined.

(** C9: the collision predicate is symmetric. *)
Theorem checkCollision_symmetric a b :
  checkCollision a b = checkCollision b a.
Proof.
  apply eq_true_iff_eq. rewrite !checkCollision_true. lia.
Qed.

(** C10: the second expiration pass is redundant: the first pass returns
    a vector without expired sprites, the second pass returns that vector
    unchanged, and the two passes together equal one. *)
Theorem second_expiration_pass_is_redundant v :
  ∃ v1, remove_expired v = Some v1 ∧ remove_expired v1 = Some v1 ∧
        Forall alive v1 ∧ expire v = remove_expired v.
Proof.
  exists (filter alive v). rewrite expire_filter, !remove_expired_filter.
  rewrite filter_alive_idemp. repeat split.
  apply Forall_forall. intros s Hs. by apply list_elem_of_filter in Hs as [? _].
Qed.


(** * Further properties *)

(** X1: two rectangles of the same size [w × h] (edges computed without
    overflow) collide exactly when their corners are less than [w] apart
    horizontally and less than [h] apart vertically. *)
Theorem same_size_rectangles_collide_iff_close a b :
  Rect.w a = Rect.w b → Rect.h a = Rect.h b →
  edges_representable a → edges_representable b →
  (checkCollision a b = true ↔
     Z.abs (Rect.x a - Rect.x b) < Rect.w a ∧
     Z.abs (Rect.y a - Rect.y b) < Rect.h a).
Proof.
  intros Hw Hh [Hax Hay] [Hbx Hby]. rewrite checkCollision_true.
  unfold int_add. rewrite !wrap_int_id by done. lia.
Qed.

Lemma same_size_rectangles_collide_iff_close_witness :
  (Rect.w (Rect.mk 0 0 50 50) = Rect.w (Rect.mk 49 10 50 50) ∧
   Rect.h (Rect.mk 0 0 50 50) = Rect.h (Rect.mk 49 10 50 50) ∧
   edges_representable (Rect.mk 0 0 50 50) ∧
   edges_representable (Rect.mk 49 10 50 50)) ∧
  (checkCollision (Rect.mk 0 0 50 50) (Rect.mk 49 10 50 50) = true ↔
     Z.abs (0 - 49) < 50 ∧ Z.abs (0 - 10) < 50).
Proof.
  assert (edges_representable (Rect.mk 0 0 50 50)) as Ha.
  { split; simpl; unfold int_range, INT_MIN, INT_MAX; lia. }
  assert (edges_representable (Rect.mk 49 10 50 50)) as Hb.
  { split; simpl; unfold int_range, INT_MIN, INT_MAX; lia. }
  split; [exact (conj eq_refl (conj eq_refl (conj Ha Hb)))|].
  exact (same_size_rectangles_collide_iff_close
           (Rect.mk 0 0 50 50) (Rect.mk 49 10 50 50) eq_refl eq_refl Ha Hb).
Defined.

(** X2: the collision loops return a vector of the same length in which
    every sprite has kept its index, lifetime, texture and size: they only
    write positions and speeds. *)
Theorem collisions_keep_the_collection v :
  ∃ v', handle_collisions v = Some v' ∧ length v' = length v ∧
        Forall2 kept v v'.
Proof.
  rewrite handle_collisions_foldl. eexists. split; [done|].
  split; [apply length_foldl_resolve_pair|apply foldl_resolve_pair_kept].
Qed.

(** X3: when no pair of sprites overlaps, and in particular when there are
    fewer than two sprites, the collision loops return the vector as it
    is. *)
Theorem collisions_without_overlap_change_nothing :
  (∀ v, no_collision v = true → handle_collisions v = Some v) ∧
  (∀ v, (length v ≤ 1)%nat → handle_collisions v = Some v).
Proof.
  split; [apply handle_collisions_no_collision|].
  intros v Hv. apply handle_collisions_no_collision.
  destruct v as [|s [|s' v]]; [done|done|]. cbn [length] in Hv. lia.
Qed.

Lemma collisions_without_overlap_change_nothing_witness :
  no_collision two_apart = true ∧ handle_collisions two_apart = Some two_apart.
Proof.
  assert (no_collision two_apart = true) as H by (vm_compute; reflexivity).
  exact (conj H (proj1 collisions_without_overlap_change_nothing two_apart H)).
Defined.

(** X4: the response to a collision of the sprites at [i] and [j] moves
    them apart: on each axis the distance between their corners grows by
    exactly 2 (coordinates away from the ends of the [int] range), and no
    other sprite is written. *)
Theorem collision_widens_the_gap i j v a b :
  i ≠ j → v !! i = Some a → v !! j = Some b →
  checkCollision (rect a) (rect b) = true →
  INT_MIN < Rect.x (rect a) < INT_MAX → INT_MIN < Rect.x (rect b) < INT_MAX →
  INT_MIN < Rect.y (rect a) < INT_MAX → INT_MIN < Rect.y (rect b) < INT_MAX →
  ∃ v' a' b',
    resolve_collision i j v = Some v' ∧ v' !! i = Some a' ∧ v' !! j = Some b' ∧
    Z.abs (Rect.x (rect a') - Rect.x (rect b'))
      = Z.abs (Rect.x (rect a) - Rect.x (rect b)) + 2 ∧
    Z.abs (Rect.y (rect a') - Rect.y (rect b'))
      = Z.abs (Rect.y (rect a) - Rect.y (rect b)) + 2 ∧
    (∀ k, k ≠ i → k ≠ j → v' !! k = v !! k).
Proof.
  intros Hne Ha Hb Hhit Hax Hbx Hay Hby.
  pose proof (lookup_lt_Some _ _ _ Ha) as Hi.
  pose proof (lookup_lt_Some _ _ _ Hb) as Hj.
  rewrite resolve_collision_pair by done.
  unfold resolve_pair. cbn [fst snd]. rewrite Ha, Hb, Hhit.
  eexists _, _, _. split; [done|].
  split; [by rewrite list_lookup_insert_ne, list_lookup_insert_eq|].
  split; [by rewrite list_lookup_insert_eq by by rewrite length_insert|].
  unfold INT_MIN, INT_MAX in *.
  split; [|split].
  - cbn [collision_response fst snd rect Rect.x]. unfold int_add, int_sub.
    case_bool_decide;
      rewrite !wrap_int_id by (unfold int_range, INT_MIN, INT_MAX; lia); lia.
  - cbn [collision_response fst snd rect Rect.y]. unfold int_add, int_sub.
    case_bool_decide;
      rewrite !wrap_int_id by (unfold int_range, INT_MIN, INT_MAX; lia); lia.
  - intros k Hki Hkj. by rewrite !list_lookup_insert_ne.
Qed.

Lemma collision_widens_the_gap_witness :
  (0%nat ≠ 1%nat ∧
   [overlapping_a; overlapping_b] !! 0%nat = Some overlapping_a ∧
   [overlapping_a; overlapping_b] !! 1%nat = Some overlapping_b ∧
   checkCollision (rect overlapping_a) (rect overlapping_b) = true ∧
   INT_MIN < Rect.x (rect overlapping_a) < INT_MAX ∧
   INT_MIN < Rect.x (rect overlapping_b) < INT_MAX ∧
   INT_MIN < Rect.y (rect overlapping_a) < INT_MAX ∧
   INT_MIN < Rect.y (rect overlapping_b) < INT_MAX) ∧
  ∃ v' a' b',
    resolve_collision 0 1 [overlapping_a; overlapping_b] = Some v' ∧
    v' !! 0%nat = Some a' ∧ v' !! 1%nat = Some b' ∧
    Z.abs (Rect.x (rect a') - Rect.x (rect b'))
      = Z.abs (Rect.x (rect overlapping_a) - Rect.x (rect overlapping_b)) + 2 ∧
    Z.abs (Rect.y (rect a') - Rect.y (rect b'))
      = Z.abs (Rect.y (rect overlapping_a) - Rect.y (rect overlapping_b)) + 2 ∧
    (∀ k, k ≠ 0%nat → k ≠ 1%nat →
       v' !! k = [overlapping_a; overlapping_b] !! k).
Proof.
  assert (0%nat ≠ 1%nat) as H1 by lia.
  assert ([overlapping_a; overlapping_b] !! 0%nat = Some overlapping_a)
    as H2 by reflexivity.
  assert ([overlapping_a; overlapping_b] !! 1%nat = Some overlapping_b)
    as H3 by reflexivity.
  assert (checkCollision (rect overlapping_a) (rect overlapping_b) = true)
    as H4 by (vm_compute; reflexivity).
  assert (INT_MIN < Rect.x (rect overlapping_a) < INT_MAX) as H5 by (by vm_compute).
  assert (INT_MIN < Rect.x (rect overlapping_b) < INT_MAX) as H6 by (by vm_compute).
  assert (INT_MIN < Rect.y (rect overlapping_a) < INT_MAX) as H7 by (by vm_compute).
  assert (INT_MIN < Rect.y (rect overlapping_b) < INT_MAX) as H8 by (by vm_compute).
  split;
    [exact (conj H1 (conj H2 (conj H3 (conj H4 (conj H5 (conj H6 (conj H7 H8)))))))|].
  exact (collision_widens_the_gap 0 1 [overlapping_a; overlapping_b]
           overlapping_a overlapping_b H1 H2 H3 H4 H5 H6 H7 H8).
Defined.

(** X5: a simulation step never adds a sprite: the result is at most as
    long as the collection it was given, and exactly as long when every
    lifetime was above 1. *)
Theorem step_never_adds_a_sprite dt v :
  ∃ v', simulation_step dt v = Some v' ∧ (length v' ≤ length v)%nat ∧
        (Forall (λ s, 1 < lifetime s ≤ INT_MAX) v → length v' = length v).
Proof.
  rewrite simulation_step_eq. eexists. split; [done|].
  pose proof (Forall2_length _ _ _ (pre_expiry_aged dt v)) as Hlen.
  split.
  - rewrite Hlen. apply length_filter.
  - intros Hv. rewrite filter_Forall_id; [done|].
    eapply Forall2_Forall_r; [apply pre_expiry_aged|].
    eapply Forall_impl; [done|]. intros s Hs s' (Hlife & _).
    cbv beta in Hs. unfold alive. rewrite Hlife. unfold int_sub.
    rewrite wrap_int_id; [lia|]. unfold int_range, INT_MIN, INT_MAX in *. lia.
Qed.

(** X6: the spawner returns a sprite exactly when the texture registry is
    not empty; on an empty registry the remainder by [textures.size()] is
    undefined. *)
Theorem spawn_succeeds_iff_registry_nonempty
    {RandState : Type} (rand : RandState → Z * RandState) textures g :
  is_Some (spawnSprite rand textures g) ↔ textures ≠ [].
Proof.
  split; [|apply spawnSprite_total].
  intros [sg Hs]. exact (spawnSprite_Some_nonempty rand textures g sg Hs).
Qed.

(** X7: left alone, the spawn timer counts the frames modulo 31, and a
    sprite is spawned on every 31st frame and on no other: after [n]
    frames in which the slider is not moved, a timer that started at [t]
    (from 0 to 30) holds [(t + n) mod 31]; the next frame leaves it at
    [(t + n + 1) mod 31], and exactly when that is 0 it has called
    [spawnSprite] and pushed the new sprite to the back of the vector
    before the step; otherwise it has stepped the vector as it was and
    left the generator alone. *)
Theorem sprite_spawned_every_31st_frame
    {RandState : Type} (rand : RandState → Z * RandState)
    textures inputs inp (st : Game) :
  textures ≠ [] → no_slider (inputs ++ [inp]) → 0 ≤ spawnTimer st ≤ 30 →
  ∃ st1 st2,
    run rand textures inputs st = Some st1 ∧
    frame rand textures inp st1 = Some st2 ∧
    spawnTimer st1 = (spawnTimer st + Z.of_nat (length inputs)) `mod` 31 ∧
    spawnTimer st2 = (spawnTimer st + Z.of_nat (length inputs) + 1) `mod` 31 ∧
    (spawnTimer st2 = 0 →
     ∃ s, spawnSprite rand textures (rng st1) = Some (s, rng st2) ∧
          simulation_step (frame_deltaTime inp st1) (sprites st1 ++ [s])
          = Some (sprites st2)) ∧
    (spawnTimer st2 ≠ 0 →
     rng st2 = rng st1 ∧
     simulation_step (frame_deltaTime inp st1) (sprites st1)
     = Some (sprites st2)).
Proof.
  intros Htex Hns Ht. apply Forall_app in Hns as [Hns Hinp].
  apply Forall_inv in Hinp. cbv beta in Hinp.
  destruct (run_spawn_timer rand textures inputs Htex Hns st Ht)
    as (st1 & Hrun & Ht1).
  pose proof (Z.mod_pos_bound (spawnTimer st + Z.of_nat (length inputs)) 31
                ltac:(lia)) as Hb.
  rewrite <- Ht1 in Hb.
  destruct (frame_cases rand textures inp st1 Htex)
    as (st2 & Hf & Hspawn & Hquiet).
  { rewrite Hinp. cbn [default from_option id]. unfold INT_MIN, INT_MAX. lia. }
  rewrite Hinp in Hspawn, Hquiet. cbn [default from_option id] in Hspawn, Hquiet.
  exists st1, st2. split; [exact Hrun|]. split; [exact Hf|].
  split; [exact Ht1|].
  assert ((spawnTimer st + Z.of_nat (length inputs) + 1) `mod` 31
          = (spawnTimer st1 + 1) `mod` 31) as ->.
  { rewrite Ht1, Zplus_mod_idemp_l. reflexivity. }
  destruct (decide (30 ≤ spawnTimer st1)) as [H30|H30].
  - destruct (Hspawn H30) as (Ht2 & s & Hs & Hstep).
    assert (spawnTimer st1 = 30) as E by lia.
    split; [rewrite Ht2, E; reflexivity|].
    split; [intros _; exists s; exact (conj Hs Hstep)|].
    intros Hne. contradiction.
  - destruct (Hquiet ltac:(lia)) as (Ht2 & Hg & Hstep).
    split; [rewrite Ht2, Z.mod_small by lia; reflexivity|].
    split; [intros H0; lia|]. intros _. exact (conj Hg Hstep).
Qed.

Lemma sprite_spawned_every_31st_frame_witness :
  (three_textures ≠ [] ∧ no_slider (frames_of_17ms 30 ++ [mkInput None 527]) ∧
   0 ≤ spawnTimer (initial_game (RandState := Z) 0 1) ≤ 30) ∧
  ∃ st1 st2,
    run msvc_rand three_textures (frames_of_17ms 30) (initial_game 0 1)
    = Some st1 ∧
    frame msvc_rand three_textures (mkInput None 527) st1 = Some st2 ∧
    spawnTimer st1
    = (spawnTimer (initial_game (RandState := Z) 0 1)
       + Z.of_nat (length (frames_of_17ms 30))) `mod` 31 ∧
    spawnTimer st2
    = (spawnTimer (initial_game (RandState := Z) 0 1)
       + Z.of_nat (length (frames_of_17ms 30)) + 1) `mod` 31 ∧
    (spawnTimer st2 = 0 →
     ∃ s, spawnSprite msvc_rand three_textures (rng st1) = Some (s, rng st2) ∧
          simulation_step (frame_deltaTime (mkInput None 527) st1)
            (sprites st1 ++ [s]) = Some (sprites st2)) ∧
    (spawnTimer st2 ≠ 0 →
     rng st2 = rng st1 ∧
     simulation_step (frame_deltaTime (mkInput None 527) st1) (sprites st1)
     = Some (sprites st2)).
Proof.
  assert (0 ≤ spawnTimer (initial_game (RandState := Z) 0 1) ≤ 30) as Ht
    by (cbn [initial_game spawnTimer]; lia).
  assert (no_slider (frames_of_17ms 30 ++ [mkInput None 527])) as Hns.
  { apply Forall_app. split; [apply no_slider_frames_of_17ms|].
    constructor; [reflexivity|constructor]. }
  split; [exact (conj three_textures_nonempty (conj Hns Ht))|].
  exact (sprite_spawned_every_31st_frame msvc_rand three_textures
           (frames_of_17ms 30) (mkInput None 527) (initial_game 0 1)
           three_textures_nonempty Hns Ht).
Defined.

(** X8: whatever is done with the slider within its range 0..60, the spawn
    timer is between 0 and 30 at the end of every frame: a frame that the
    slider makes start from 30 or more spawns a sprite and resets the
    timer to 0 at once, and a frame that starts below 30 spawns nothing
    and leaves the timer one higher. *)
Theorem slider_cannot_hold_the_timer_above_30
    {RandState : Type} (rand : RandState → Z * RandState)
    textures inputs inp (st : Game) :
  textures ≠ [] → slider_within 0 60 (inputs ++ [inp]) →
  0 ≤ spawnTimer st ≤ 30 →
  ∃ st1 st2,
    run rand textures inputs st = Some st1 ∧
    frame rand textures inp st1 = Some st2 ∧
    0 ≤ spawnTimer st1 ≤ 30 ∧ 0 ≤ spawnTimer st2 ≤ 30 ∧
    (30 ≤ default (spawnTimer st1) (slider inp) →
     spawnTimer st2 = 0 ∧
     ∃ s, spawnSprite rand textures (rng st1) = Some (s, rng st2) ∧
          simulation_step (frame_deltaTime inp st1) (sprites st1 ++ [s])
          = Some (sprites st2)) ∧
    (default (spawnTimer st1) (slider inp) < 30 →
     spawnTimer st2 = default (spawnTimer st1) (slider inp) + 1 ∧
     rng st2 = rng st1 ∧
     simulation_step (frame_deltaTime inp st1) (sprites st1)
     = Some (sprites st2)).
Proof.
  intros Htex Hin Ht. apply Forall_app in Hin as [Hin Hinp].
  apply Forall_inv in Hinp. cbv beta in Hinp.
  destruct (run_spawn_timer_range rand textures inputs Htex Hin st Ht)
    as (st1 & Hrun & Ht1).
  assert (0 ≤ default (spawnTimer st1) (slider inp) ≤ 60) as Ht0.
  { destruct (slider inp) as [z|]; cbn [default from_option id] in *; lia. }
  destruct (frame_cases rand textures inp st1 Htex)
    as (st2 & Hf & Hspawn & Hquiet).
  { unfold INT_MIN, INT_MAX. lia. }
  exists st1, st2. split; [exact Hrun|]. split; [exact Hf|].
  split; [exact Ht1|]. split; [|exact (conj Hspawn Hquiet)].
  destruct (decide (30 ≤ default (spawnTimer st1) (slider inp))) as [H30|H30].
  - destruct (Hspawn H30) as (Ht2 & _). lia.
  - destruct (Hquiet ltac:(lia)) as (Ht2 & _). lia.
Qed.

Lemma slider_cannot_hold_the_timer_above_30_witness :
  (three_textures ≠ [] ∧ slider_within 0 60 (slider_moves ++ [slider_to_45]) ∧
   0 ≤ spawnTimer (initial_game (RandState := Z) 0 1) ≤ 30) ∧
  ∃ st1 st2,
    run msvc_rand three_textures slider_moves (initial_game 0 1) = Some st1 ∧
    frame msvc_rand three_textures slider_to_45 st1 = Some st2 ∧
    0 ≤ spawnTimer st1 ≤ 30 ∧ 0 ≤ spawnTimer st2 ≤ 30 ∧
    (30 ≤ default (spawnTimer st1) (slider slider_to_45) →
     spawnTimer st2 = 0 ∧
     ∃ s, spawnSprite msvc_rand three_textures (rng st1) = Some (s, rng st2) ∧
          simulation_step (frame_deltaTime slider_to_45 st1)
            (sprites st1 ++ [s]) = Some (sprites st2)) ∧
    (default (spawnTimer st1) (slider slider_to_45) < 30 →
     spawnTimer st2 = default (spawnTimer st1) (slider slider_to_45) + 1 ∧
     rng st2 = rng st1 ∧
     simulation_step (frame_deltaTime slider_to_45 st1) (sprites st1)
     = Some (sprites st2)).
Proof.
  assert (0 ≤ spawnTimer (initial_game (RandState := Z) 0 1) ≤ 30) as Ht
    by (cbn [initial_game spawnTimer]; lia).
  assert (slider_within 0 60 (slider_moves ++ [slider_to_45])) as Hin.
  { unfold slider_within, slider_moves, slider_to_45. cbn [app].
    repeat constructor; cbn [slider from_option]; lia. }
  split; [exact (conj three_textures_nonempty (conj Hin Ht))|].
  exact (slider_cannot_hold_the_timer_above_30 msvc_rand three_textures
           slider_moves slider_to_45 (initial_game 0 1)
           three_textures_nonempty Hin Ht).
Defined.

(** X9: with the slider left alone, the collection stays empty and
    [rand()] is not called during the first 30 frames; the 31st frame
    spawns the first sprite from the untouched generator and already runs
    the update loop on it, so that it is first drawn one step away from its
    spawn position, with its lifetime less 1. *)
Theorem first_sprite_appears_on_frame_31
    {RandState : Type} (rand : RandState → Z * RandState)
    textures inputs inp ticks g :
  (∀ g, 0 ≤ (rand g).1 ≤ INT_MAX) →
  textures ≠ [] → no_slider inputs → length inputs = 30%nat →
  slider inp = None →
  (∀ n, ∃ st, run rand textures (take n inputs) (initial_game ticks g)
              = Some st ∧ sprites st = [] ∧ rng st = g) ∧
  ∃ st30 st31 s g',
    run rand textures inputs (initial_game ticks g) = Some st30 ∧
    spawnSprite rand textures g = Some (s, g') ∧
    run rand textures (inputs ++ [inp]) (initial_game ticks g) = Some st31 ∧
    sprites st31 = [update_sprite (frame_deltaTime inp st30) s] ∧
    spawnTimer st31 = 0 ∧ rng st31 = g'.
Proof.
  intros Hrand Htex Hns Hlen Hinp. split.
  - intros n.
    destruct (quiet_frames rand textures (take n inputs)
                (Forall_take _ n _ Hns) (initial_game ticks g))
      as (st & Hrun & Hs & Hg & _); [done|cbn; lia| |].
    + cbn [initial_game spawnTimer]. rewrite length_take. lia.
    + exists st. exact (conj Hrun (conj Hs Hg)).
  - destruct (quiet_frames rand textures inputs Hns (initial_game ticks g))
      as (st30 & Hrun & Hs & Hg & Ht); [done|cbn; lia|cbn; lia|].
    cbn [initial_game spawnTimer rng] in Hg, Ht.
    destruct (spawnSprite_total rand textures g Htex) as [[s g'] Hspawn].
    pose proof (spawnSprite_lifetime rand Hrand _ _ _ _ Hspawn) as Hlife.
    exists st30. eexists. exists s, g'. split; [exact Hrun|].
    split; [exact Hspawn|].
    rewrite run_snoc, Hrun. cbn [mbind option_bind].
    rewrite (frame_with_spawn rand textures inp st30 s g').
    + split; [reflexivity|]. cbn [sprites spawnTimer rng]. rewrite Hs.
      split; [|done]. cbn [app].
      change (pre_expiry (frame_deltaTime inp st30) [s])
        with [update_sprite (frame_deltaTime inp st30) s].
      apply filter_Forall_id. constructor; [|constructor].
      unfold alive.
      destruct (update_sprite_fields (frame_deltaTime inp st30) s)
        as (_ & _ & _ & -> & _).
      unfold int_sub. rewrite wrap_int_id; [lia|].
      unfold int_range, INT_MIN, INT_MAX. lia.
    + rewrite Hinp. cbn [default]. rewrite int_add_small;
        [lia|unfold int_range, INT_MIN, INT_MAX; lia].
    + rewrite Hg. exact Hspawn.
Qed.

Lemma first_sprite_appears_on_frame_31_witness :
  ((∀ g, 0 ≤ (msvc_rand g).1 ≤ INT_MAX) ∧ three_textures ≠ [] ∧
   no_slider (frames_of_17ms 30) ∧ length (frames_of_17ms 30) = 30%nat ∧
   slider (mkInput None 527) = None) ∧
  (∀ n, ∃ st, run msvc_rand three_textures (take n (frames_of_17ms 30))
                (initial_game 0 1) = Some st ∧ sprites st = [] ∧ rng st = 1) ∧
  ∃ st30 st31 s g',
    run msvc_rand three_textures (frames_of_17ms 30) (initial_game 0 1)
    = Some st30 ∧
    spawnSprite msvc_rand three_textures 1 = Some (s, g') ∧
    run msvc_rand three_textures (frames_of_17ms 30 ++ [mkInput None 527])
      (initial_game 0 1) = Some st31 ∧
    sprites st31 = [update_sprite (frame_deltaTime (mkInput None 527) st30) s] ∧
    spawnTimer st31 = 0 ∧ rng st31 = g'.
Proof.
  assert (length (frames_of_17ms 30) = 30%nat) as Hlen by reflexivity.
  split;
    [exact (conj msvc_rand_range
              (conj three_textures_nonempty
                 (conj (no_slider_frames_of_17ms 30) (conj Hlen eq_refl))))|].
  exact (first_sprite_appears_on_frame_31 msvc_rand three_textures
           (frames_of_17ms 30) (mkInput None 527) 0 1 msvc_rand_range
           three_textures_nonempty (no_slider_frames_of_17ms 30) Hlen eq_refl).
Defined.

(** X10: with the slider left alone there are never more than 13 sprites:
    one is spawned every 31 frames and none outlives 398 frames. *)
Theorem at_most_13_sprites_without_slider
    {RandState : Type} (rand : RandState → Z * RandState)
    textures inputs ticks g :
  (∀ g, 0 ≤ (rand g).1 ≤ INT_MAX) → textures ≠ [] → no_slider inputs →
  ∃ st', run rand textures inputs (initial_game ticks g) = Some st' ∧
         (length (sprites st') ≤ 13)%nat.
Proof.
  intros Hrand Htex Hns.
  destruct (run_paced rand Hrand textures inputs Htex Hns (initial_game ticks g))
    as (st' & Hrun & Hst'); [apply initial_game_paced|].
  exists st'. split; [exact Hrun|]. by apply paced_length.
Qed.

Lemma at_most_13_sprites_without_slider_witness :
  ((∀ g, 0 ≤ (msvc_rand g).1 ≤ INT_MAX) ∧ three_textures ≠ [] ∧
   no_slider (frames_of_17ms 60)) ∧
  ∃ st', run msvc_rand three_textures (frames_of_17ms 60) (initial_game 0 1)
         = Some st' ∧ (length (sprites st') ≤ 13)%nat.
Proof.
  split;
    [exact (conj msvc_rand_range
              (conj three_textures_nonempty (no_slider_frames_of_17ms 60)))|].
  exact (at_most_13_sprites_without_slider msvc_rand three_textures
           (frames_of_17ms 60) 0 1 msvc_rand_range three_textures_nonempty
           (no_slider_frames_of_17ms 60)).
Defined.

(** X11: whatever is done with the slider, every frame starts with at most
    398 sprites, holds at most 399 between its [push_back] and its erase
    passes (through the update and collision loops), and ends with at most
    398, each with a lifetime from 1 to 398: at most one sprite is spawned
    per frame, with a lifetime below 400 that the same frame already
    decrements. *)
Theorem at_most_399_sprites_in_a_frame
    {RandState : Type} (rand : RandState → Z * RandState)
    textures inputs inp ticks g :
  (∀ g, 0 ≤ (rand g).1 ≤ INT_MAX) → textures ≠ [] →
  ∃ st1 st2 v0 v1 v2,
    run rand textures inputs (initial_game ticks g) = Some st1 ∧
    frame rand textures inp st1 = Some st2 ∧
    ((v0 = sprites st1 ∧ rng st2 = rng st1) ∨
     (∃ s, v0 = sprites st1 ++ [s] ∧
           spawnSprite rand textures (rng st1) = Some (s, rng st2))) ∧
    update_positions (frame_deltaTime inp st1) v0 = Some v1 ∧
    handle_collisions v1 = Some v2 ∧
    expire v2 = Some (sprites st2) ∧
    (length (sprites st1) ≤ 398)%nat ∧
    (length v0 ≤ 399)%nat ∧ (length v1 ≤ 399)%nat ∧ (length v2 ≤ 399)%nat ∧
    (length (sprites st2) ≤ 398)%nat ∧
    Forall (λ s, 0 < lifetime s ≤ 398) (sprites st2).
Proof.
  intros Hrand Htex.
  destruct (run_crowded rand Hrand textures inputs Htex (initial_game ticks g))
    as (st1 & Hrun & Hst1); [apply initial_game_crowded|].
  destruct (frame_crowded rand Hrand textures inp st1 Htex Hst1)
    as (st2 & Hf & Hst2).
  pose proof (crowded_length st1 Hst1) as Hlen1.
  pose proof (crowded_length st2 Hst2) as Hlen2.
  pose proof (crowded_lifetimes st2 Hst2) as Hlife2.
  assert (∃ v0,
    ((v0 = sprites st1 ∧ rng st2 = rng st1) ∨
     (∃ s, v0 = sprites st1 ++ [s] ∧
           spawnSprite rand textures (rng st1) = Some (s, rng st2))) ∧
    sprites st2 = filter alive (pre_expiry (frame_deltaTime inp st1) v0) ∧
    (length v0 ≤ 399)%nat) as (v0 & Hv0 & Hs2 & Hlen0).
  { destruct (decide (default (spawnTimer st1) (slider inp) +i 1 > 30))
      as [Ht|Ht].
    - destruct (spawnSprite_total rand textures (rng st1) Htex)
        as [[s g'] Hs].
      rewrite (frame_with_spawn rand textures inp st1 s g' Ht Hs) in Hf.
      injection Hf as <-. exists (sprites st1 ++ [s]). cbn [sprites rng].
      split; [right; exists s; exact (conj eq_refl Hs)|].
      split; [reflexivity|]. rewrite length_app. cbn [length]. lia.
    - rewrite (frame_without_spawn rand textures inp st1) in Hf by lia.
      injection Hf as <-. exists (sprites st1). cbn [sprites rng].
      split; [left; exact (conj eq_refl eq_refl)|].
      split; [reflexivity|]. lia. }
  destruct (simulation_step_stages (frame_deltaTime inp st1) v0)
    as (v1 & v2 & Hup & Hcol & Hexp & Hl1 & Hl2).
  exists st1, st2, v0, v1, v2.
  split; [exact Hrun|]. split; [exact Hf|]. split; [exact Hv0|].
  split; [exact Hup|]. split; [exact Hcol|].
  split; [rewrite Hs2; exact Hexp|].
  split; [exact Hlen1|]. split; [exact Hlen0|]. split; [lia|]. split; [lia|].
  exact (conj Hlen2 Hlife2).
Qed.

Lemma at_most_399_sprites_in_a_frame_witness :
  ((∀ g, 0 ≤ (msvc_rand g).1 ≤ INT_MAX) ∧ three_textures ≠ []) ∧
  ∃ st1 st2 v0 v1 v2,
    run msvc_rand three_textures slider_moves (initial_game 0 1) = Some st1 ∧
    frame msvc_rand three_textures slider_to_45 st1 = Some st2 ∧
    ((v0 = sprites st1 ∧ rng st2 = rng st1) ∨
     (∃ s, v0 = sprites st1 ++ [s] ∧
           spawnSprite msvc_rand three_textures (rng st1) = Some (s, rng st2))) ∧
    update_positions (frame_deltaTime slider_to_45 st1) v0 = Some v1 ∧
    handle_collisions v1 = Some v2 ∧
    expire v2 = Some (sprites st2) ∧
    (length (sprites st1) ≤ 398)%nat ∧
    (length v0 ≤ 399)%nat ∧ (length v1 ≤ 399)%nat ∧ (length v2 ≤ 399)%nat ∧
    (length (sprites st2) ≤ 398)%nat ∧
    Forall (λ s, 0 < lifetime s ≤ 398) (sprites st2).
Proof.
  split; [exact (conj msvc_rand_range three_textures_nonempty)|].
  exact (at_most_399_sprites_in_a_frame msvc_rand three_textures slider_moves
           slider_to_45 0 1 msvc_rand_range three_textures_nonempty).
Defined.

(** X12: [deltaTime] is the time elapsed since the last frame even when
    the 32-bit tick counter has wrapped around in between: the unsigned
    subtraction [currentTime - lastTime] gives the [e] milliseconds that
    passed, for any [e] below 2^32. *)
Theorem deltaTime_survives_tick_wraparound
    {RandState : Type} inp (st : Game (RandState := RandState)) e :
  0 ≤ e < UINT32_MOD →
  currentTime inp = (lastTime st + e) `mod` UINT32_MOD →
  frame_deltaTime inp st = dt_of_ms e.
Proof.
  intros He Hnow. unfold frame_deltaTime, dt_of_ms.
  by rewrite Hnow, uint32_sub_elapsed.
Qed.

Lemma deltaTime_survives_tick_wraparound_witness :
  (0 ≤ 16 < UINT32_MOD ∧
   currentTime after_wrap = (lastTime before_wrap + 16) `mod` UINT32_MOD) ∧
  frame_deltaTime after_wrap before_wrap = dt_of_ms 16.
Proof.
  assert (0 ≤ 16 < UINT32_MOD) as He by (unfold UINT32_MOD; lia).
  assert (currentTime after_wrap = (lastTime before_wrap + 16) `mod` UINT32_MOD)
    as Hnow by (vm_compute; reflexivity).
  split; [exact (conj He Hnow)|].
  exact (deltaTime_survives_tick_wraparound after_wrap before_wrap 16 He Hnow).
Defined.

(** X13: the texture loading of [main] loads exactly three textures; a
    texture is null exactly when its file did not load or gave a null
    texture; the check after loading either finds all three non-null and
    enters the main loop with them, or stops at the first null one, prints
    its 1-based number and exits with code 1. *)
Theorem startup_stops_at_the_first_missing_texture
    {Surface : Type} (IMG_Load : string → option Surface)
    (SDL_CreateTextureFromSurface : Surface → SDL_Texture) :
  length (load_textures IMG_Load SDL_CreateTextureFromSurface) = 3%nat ∧
  (∀ path, (loadTexture IMG_Load SDL_CreateTextureFromSurface path).1 ≠ 0%N
           ↔ usable IMG_Load SDL_CreateTextureFromSurface path) ∧
  ((Forall (λ t, t ≠ 0%N) (load_textures IMG_Load SDL_CreateTextureFromSurface) ∧
    startup IMG_Load SDL_CreateTextureFromSurface
    = Some (Started (load_textures IMG_Load SDL_CreateTextureFromSurface))) ∨
   (∃ k, load_textures IMG_Load SDL_CreateTextureFromSurface !! k = Some 0%N ∧
         (∀ j, (j < k)%nat →
            load_textures IMG_Load SDL_CreateTextureFromSurface !! j ≠ Some 0%N) ∧
         startup IMG_Load SDL_CreateTextureFromSurface
         = Some (StartupFailed 1 (k + 1)))).
Proof.
  split; [reflexivity|]. split; [|apply startup_cases].
  intros path. unfold loadTexture, usable.
  destruct (IMG_Load path) as [surface|]; cbn [fst].
  - split; [intros Ht; by exists surface|].
    intros (surface' & Hs & Ht). by injection Hs as <-.
  - split; [done|]. by intros (surface' & Hs & _).
Qed.

(** X14: once the startup has entered the main loop, every
    [SDL_RenderCopy] of every frame is given a texture of the registry, and
    never a null one. *)
Theorem only_loaded_textures_are_drawn
    {Surface RandState : Type} (IMG_Load : string → option Surface)
    (SDL_CreateTextureFromSurface : Surface → SDL_Texture)
    (rand : RandState → Z * RandState) textures inputs ticks g :
  startup IMG_Load SDL_CreateTextureFromSurface = Some (Started textures) →
  ∃ st', run rand textures inputs (initial_game ticks g) = Some st' ∧
         Forall (λ c, c.1 ∈ textures ∧ c.1 ≠ 0%N) (draw_calls (sprites st')).
Proof.
  intros Hstart.
  assert (Forall (λ t, t ≠ 0%N) textures ∧ textures ≠ []) as [Hall Htex].
  { destruct (startup_cases IMG_Load SDL_CreateTextureFromSurface)
      as [[Hall Hs]|(k & _ & _ & Hs)]; rewrite Hs in Hstart; [|done].
    injection Hstart as <-. split; [exact Hall|]. discriminate. }
  destruct (run_textures rand textures inputs Htex (initial_game ticks g))
    as (st' & Hrun & Hst'); [constructor|].
  exists st'. split; [exact Hrun|]. unfold draw_calls. apply Forall_fmap.
  eapply Forall_impl; [exact Hst'|]. intros s Hs. cbn [compose fst].
  split; [exact Hs|]. rewrite Forall_forall in Hall. by apply Hall.
Qed.

Lemma only_loaded_textures_are_drawn_witness :
  startup every_file_loads texture_of_surface = Some (Started [17; 17; 17]%N) ∧
  ∃ st', run msvc_rand [17; 17; 17]%N (frames_of_17ms 60) (initial_game 0 1)
         = Some st' ∧
         Forall (λ c, c.1 ∈ [17; 17; 17]%N ∧ c.1 ≠ 0%N) (draw_calls (sprites st')).
Proof.
  assert (startup every_file_loads texture_of_surface
          = Some (Started [17; 17; 17]%N)) as Hstart by (vm_compute; reflexivity).
  split; [exact Hstart|].
  exact (only_loaded_textures_are_drawn every_file_loads texture_of_surface
           msvc_rand [17; 17; 17]%N (frames_of_17ms 60) 0 1 Hstart).
Defined.

(** X15: the displacement of a frame is an odd function of the speed: as
    long as the conversion to [int] does not overflow, a sprite moving at
    [-v] is displaced by exactly the opposite of what it would be at [v],
    for every [deltaTime]. *)
Theorem displacement_is_odd v dt :
  v ≠ 0 → displacement v dt ≠ INT_MIN →
  displacement (- v) dt = - displacement v dt.
Proof.
  intros Hv Hd. pose proof (displacement_opp v dt Hv) as Hsum.
  pose proof (to_int_range
    (Float32.mul (Float32.mul (Float32.of_Z v) dt) (Float32.of_Z 60))) as H1.
  pose proof (to_int_range
    (Float32.mul (Float32.mul (Float32.of_Z (- v)) dt) (Float32.of_Z 60))) as H2.
  fold (displacement v dt) in H1. fold (displacement (- v) dt) in H2.
  unfold int_range, INT_MIN, INT_MAX, UINT32_MOD in *.
  apply Z.mod_divide in Hsum; [|done]. destruct Hsum as [k Hk]. lia.
Qed.

Lemma displacement_is_odd_witness :
  (3 ≠ 0 ∧ displacement 3 one_sixtieth ≠ INT_MIN) ∧
  displacement (- 3) one_sixtieth = - displacement 3 one_sixtieth.
Proof.
  assert (3 ≠ 0) as Hv by lia.
  assert (displacement 3 one_sixtieth ≠ INT_MIN) as Hd
    by (vm_compute; discriminate).
  split; [exact (conj Hv Hd)|].
  exact (displacement_is_odd 3 one_sixtieth Hv Hd).
Defined.

(** X16: for the speeds the spawner gives (magnitude at most 5) and frames
    of up to one second, the [float] computation of the displacement,
    [static_cast<int>(speed * deltaTime * 60)] with [deltaTime = ms /
    1000.0f], gives the exactly computed [speed * ms * 60 / 1000] truncated
    toward zero, or falls one unit short of it; it does fall short: at
    speed 5 a frame of 10 ms moves the sprite by 2, not 3. *)
Theorem displacement_within_one_of_exact :
  (∀ v ms, -5 ≤ v ≤ 5 → 0 ≤ ms ≤ 1000 →
     displacement v (dt_of_ms ms) = exact_displacement v ms ∨
     displacement v (dt_of_ms ms)
     = exact_displacement v ms - Z.sgn (exact_displacement v ms)) ∧
  displacement 5 (dt_of_ms 10) = 2 ∧ exact_displacement 5 10 = 3.
Proof.
  split; [|split; vm_compute; reflexivity].
  intros v ms Hv Hms.
  pose proof (displacement_close_spec 5 1000 v ms
                displacement_close_upto_5_1000 Hv Hms) as Hclose.
  unfold displacement_close in Hclose. cbv zeta in Hclose.
  apply orb_true_iff in Hclose as [H|H]; apply bool_decide_eq_true in H;
    [left|right]; exact H.
Qed.

Lemma displacement_within_one_of_exact_witness :
  (-5 ≤ -4 ≤ 5 ∧ 0 ≤ 16 ≤ 1000) ∧
  (displacement (-4) (dt_of_ms 16) = exact_displacement (-4) 16 ∨
   displacement (-4) (dt_of_ms 16)
   = exact_displacement (-4) 16 - Z.sgn (exact_displacement (-4) 16)).
Proof.
  assert (-5 ≤ -4 ≤ 5) as Hv by lia.
  assert (0 ≤ 16 ≤ 1000) as Hms by lia.
  split; [exact (conj Hv Hms)|].
  exact (proj1 displacement_within_one_of_exact (-4) 16 Hv Hms).
Defined.

(** X17: a simulation step changes the speeds of a sprite in sign only:
    index by index, the vector handed to the expiration passes holds
    sprites with the same speed magnitudes on both axes, provided no speed
    is [INT_MIN] (which negation cannot represent). *)
Theorem step_keeps_speed_magnitudes dt v :
  Forall speeds_negatable v →
  ∃ v', simulation_step dt v = Some v' ∧
        v' = filter alive (pre_expiry dt v) ∧
        Forall2 same_speed_magnitude v (pre_expiry dt v) ∧
        Forall speeds_negatable v'.
Proof.
  intros Hv. rewrite simulation_step_eq. eexists. split; [reflexivity|].
  split; [reflexivity|].
  assert (Forall2 (λ s s', same_speed_magnitude s s' ∧ speeds_negatable s')
            v (pre_expiry dt v)) as Hboth.
  { eapply Forall2_impl.
    - apply Forall2_and_l; [exact Hv|apply pre_expiry_steady].
    - intros s s' [Hs Hst]. exact (Hst Hs). }
  split.
  - eapply Forall2_impl; [exact Hboth|]. intros s s' [Hm _]. exact Hm.
  - apply Forall_forall. intros s' Hs'.
    apply list_elem_of_filter in Hs' as [_ Hs'].
    revert s' Hs'. apply Forall_forall.
    eapply Forall2_Forall_r; [exact Hboth|].
    apply Forall_forall. intros s _ s' [_ Hn]. exact Hn.
Qed.

Lemma step_keeps_speed_magnitudes_witness :
  Forall speeds_negatable two_speeds ∧
  ∃ v', simulation_step one_sixtieth two_speeds = Some v' ∧
        v' = filter alive (pre_expiry one_sixtieth two_speeds) ∧
        Forall2 same_speed_magnitude two_speeds
          (pre_expiry one_sixtieth two_speeds) ∧
        Forall speeds_negatable v'.
Proof.
  assert (Forall speeds_negatable two_speeds) as Hv.
  { unfold two_speeds, speeds_negatable, INT_MIN, INT_MAX.
    repeat constructor; cbn [speedX speedY]; lia. }
  split; [exact Hv|].
  exact (step_keeps_speed_magnitudes one_sixtieth two_speeds Hv).
Defined.

(** X18: every sprite the main loop ever holds has the shape the spawner
    gave it: it is 50 by 50, and its speeds have magnitudes from 1 to 5 on
    both axes; bounces and collisions only change their signs. *)
Theorem sprites_keep_their_spawn_shape
    {RandState : Type} (rand : RandState → Z * RandState)
    textures inputs ticks g :
  (∀ g, 0 ≤ (rand g).1 ≤ INT_MAX) → textures ≠ [] →
  ∃ st', run rand textures inputs (initial_game ticks g) = Some st' ∧
         Forall spawner_shape (sprites st').
Proof.
  intros Hrand Htex.
  apply (run_invariant rand spawner_shape textures inputs).
  - apply pre_expiry_spawner_shape.
  - intros g0 s g' Hs. exact (spawnSprite_shape rand Hrand _ _ _ _ Hs).
  - exact Htex.
  - constructor.
Qed.

Lemma sprites_keep_their_spawn_shape_witness :
  ((∀ g, 0 ≤ (msvc_rand g).1 ≤ INT_MAX) ∧ three_textures ≠ []) ∧
  ∃ st', run msvc_rand three_textures (frames_of_17ms 60) (initial_game 0 1)
         = Some st' ∧ Forall spawner_shape (sprites st').
Proof.
  split; [exact (conj msvc_rand_range three_textures_nonempty)|].
  exact (sprites_keep_their_spawn_shape msvc_rand three_textures
           (frames_of_17ms 60) 0 1 msvc_rand_range three_textures_nonempty).
Defined.



(** X20: slow sprites stand still in short frames: the conversion to
    [int] truncates, so on an axis where [|speed| * ms * 60 < 1000] (speed
    magnitude at most 5) the update loop leaves the coordinate as it is;
    a sprite of speed 1 does not move in a frame of 16 ms. *)
Theorem slow_sprites_stand_still_in_short_frames ms s :
  0 ≤ ms ≤ 1000 →
  (-5 ≤ speedX s ≤ 5 → Z.abs (speedX s) * ms * 60 < 1000 →
   int_range (Rect.x (rect s)) →
   Rect.x (rect (update_sprite (dt_of_ms ms) s)) = Rect.x (rect s)) ∧
  (-5 ≤ speedY s ≤ 5 → Z.abs (speedY s) * ms * 60 < 1000 →
   int_range (Rect.y (rect s)) →
   Rect.y (rect (update_sprite (dt_of_ms ms) s)) = Rect.y (rect s)).
Proof.
  intros Hms.
  destruct (update_sprite_fields (dt_of_ms ms) s) as (Hrect & _).
  cbv zeta in Hrect. rewrite Hrect. cbn [Rect.x Rect.y].
  split; intros Hv Hsmall Hr; rewrite displacement_zero by done;
    unfold int_add; rewrite Z.add_0_r; by apply wrap_int_id.
Qed.

Lemma slow_sprites_stand_still_in_short_frames_witness :
  0 ≤ 16 ≤ 1000 ∧
  (-5 ≤ speedX near_right_edge ≤ 5 ∧
   Z.abs (speedX near_right_edge) * 16 * 60 < 1000 ∧
   int_range (Rect.x (rect near_right_edge))) ∧
  Rect.x (rect (update_sprite (dt_of_ms 16) near_right_edge))
  = Rect.x (rect near_right_edge).
Proof.
  assert (0 ≤ 16 ≤ 1000) as Hms by lia.
  assert (-5 ≤ speedX near_right_edge ≤ 5) as Hv
    by (cbn [near_right_edge speedX]; lia).
  assert (Z.abs (speedX near_right_edge) * 16 * 60 < 1000) as Hsmall
    by (vm_compute; reflexivity).
  assert (int_range (Rect.x (rect near_right_edge))) as Hr.
  { unfold int_range, INT_MIN, INT_MAX. cbn [near_right_edge rect Rect.x]. lia. }
  split; [exact Hms|]. split; [exact (conj Hv (conj Hsmall Hr))|].
  exact (proj1 (slow_sprites_stand_still_in_short_frames 16 near_right_edge Hms)
           Hv Hsmall Hr).
Defined.
